(** * Category tree flattening and upsert (fill_categories.py)

    A shallow embedding of [generate_slug], [parse_categories] and
    [insert_categories], and the properties the specification states about
    them. *)

From Stdlib Require Import Ascii String.
From stdpp Require Import gmap strings list fin_maps pretty.

(** ** Python strings

    A Python [str] is a sequence of Unicode code points. *)

Abbreviation pystr := (list N).

(** An ASCII literal of the source, as a [str]. *)
Definition lit (s : string) : pystr := N_of_ascii <$> list_ascii_of_string s.

Definition hyphen : N := 45%N.
Definition underscore : N := 95%N.

Definition is_hyphen (c : N) : bool := (c =? hyphen)%N.

Definition is_ascii (c : N) : bool := (c <? 128)%N.

(** CPython's tables for the ASCII range. *)
Definition ascii_isalnum (c : N) : bool :=
  (((48 <=? c) && (c <=? 57)) || ((65 <=? c) && (c <=? 90))
   || ((97 <=? c) && (c <=? 122)))%N.

(** [_Py_ascii_whitespace]: TAB, LF, VT, FF, CR, FS, GS, RS, US and SPACE. *)
Definition ascii_isspace (c : N) : bool :=
  (((9 <=? c) && (c <=? 13)) || ((28 <=? c) && (c <=? 31)) || (c =? 32))%N.

Definition ascii_lower (c : N) : N :=
  if ((65 <=? c) && (c <=? 90))%N then (c + 32)%N else c.

(** What the interpreter's Unicode database says beyond ASCII.  It ships with
    the interpreter, not with this repository, and is a parameter here. *)
Record UnicodeDB := {
  (** [str.lower()] of a string that has a non-ASCII code point *)
  uni_lower : pystr → pystr;
  (** [Py_UNICODE_ISALNUM] on a code point from 128 on *)
  uni_isalnum : N → bool;
  (** [Py_UNICODE_ISSPACE] on a code point from 128 on *)
  uni_isspace : N → bool
}.

(** A database that knows no letter, digit or blank beyond ASCII. *)
Definition ascii_only : UnicodeDB :=
  {| uni_lower := λ s, s; uni_isalnum := λ _, false; uni_isspace := λ _, false |}.

Section Strings.
Variable U : UnicodeDB.

(** [str.lower()]: the ASCII fast path, or the full Unicode mapping. *)
Definition lower (s : pystr) : pystr :=
  if forallb is_ascii s then ascii_lower <$> s else uni_lower U s.

(** [\w] in a [str] pattern: alphanumeric or underscore. *)
Definition is_word (c : N) : bool :=
  (if is_ascii c then ascii_isalnum c else uni_isalnum U c) || (c =? underscore)%N.

(** [\s] in a [str] pattern. *)
Definition is_space (c : N) : bool :=
  if is_ascii c then ascii_isspace c else uni_isspace U c.

(** [re.sub] with a pattern that is one character set: each character of
    the set is a match of its own. *)
Definition re_sub_set (set : N → bool) (repl : pystr) (s : pystr) : pystr :=
  s ≫= λ c, if set c then repl else [c].

(** [re.sub] with a pattern [[...]+]: the scan goes left to right and a match
    is greedy, so a match is a maximal run of characters of the set.
    [in_match] tells that the previous character belonged to a match. *)
Fixpoint re_sub_plus_from (set : N → bool) (repl : pystr) (in_match : bool)
    (s : pystr) : pystr :=
  match s with
  | [] => []
  | c :: s' =>
      if set c
      then (if in_match then [] else repl) ++ re_sub_plus_from set repl true s'
      else c :: re_sub_plus_from set repl false s'
  end.

Definition re_sub_plus (set : N → bool) (repl : pystr) (s : pystr) : pystr :=
  re_sub_plus_from set repl false s.

(** [str.lstrip], [str.rstrip] and [str.strip] with a set of characters. *)
Fixpoint lstrip (set : N → bool) (s : pystr) : pystr :=
  match s with
  | [] => []
  | c :: s' => if set c then lstrip set s' else s
  end.

Definition rstrip (set : N → bool) (s : pystr) : pystr :=
  reverse (lstrip set (reverse s)).

Definition strip (set : N → bool) (s : pystr) : pystr :=
  rstrip set (lstrip set s).

(** The set [[^\w\s-]]. *)
Definition not_word_space_hyphen (c : N) : bool :=
  negb (is_word c || is_space c || is_hyphen c).

(** The set [[-\s]]. *)
Definition hyphen_or_space (c : N) : bool :=
  is_hyphen c || is_space c.

Definition generate_slug (name : pystr) : pystr :=
  let slug := lower name in
  let slug := re_sub_set not_word_space_hyphen [] slug in
  let slug := re_sub_plus hyphen_or_space [hyphen] slug in
  let slug := strip is_hyphen slug in
  slug.

End Strings.

(** ** The category tree and its records *)

(** A node of the JSON document: a dict with the keys [id], [name] and
    [childNodes], each of which may be absent. *)
#[local] Unset Elimination Schemes.
Inductive CategoryNode : Type :=
  Node (node_id : option pystr) (node_name : option pystr)
       (child_nodes : option (list CategoryNode)).
#[local] Set Elimination Schemes.

Definition node_id (data : CategoryNode) : option pystr :=
  let 'Node i _ _ := data in i.
Definition node_name (data : CategoryNode) : option pystr :=
  let 'Node _ n _ := data in n.
Definition child_nodes (data : CategoryNode) : option (list CategoryNode) :=
  let 'Node _ _ cs := data in cs.

(** The tuple [(id, parent_id, name, slug, is_active, updated_at)]. *)
Record CategoryRecord := {
  cat_id : pystr;
  cat_parent_id : option pystr;
  cat_name : pystr;
  cat_slug : pystr;
  cat_is_active : bool;
  cat_updated_at : Z
}.

(** What a run draws from outside: the [n]-th value of [str(uuid.uuid4())]
    and the [n]-th reading of [datetime.now(timezone.utc)]. *)
Record World := {
  uuid4 : nat → pystr;
  now_utc : nat → Z
}.

(** The mutable state of a traversal: the shared [slug_tracker] dict, and how
    many identifiers and clock readings have been drawn so far. *)
Record Store := {
  slug_tracker : gmap (pystr * pystr) nat;
  uuid_calls : nat;
  clock_calls : nat
}.

Definition root : pystr := lit "root".

(** Truth value of a [str]. *)
Definition truthy (s : pystr) : bool :=
  match s with [] => false | _ :: _ => true end.

(** [parent_id if parent_id else 'root'] *)
Definition parent_or_root (parent_id : option pystr) : pystr :=
  match parent_id with
  | Some p => if truthy p then p else root
  | None => root
  end.

(** [f"{base_slug}-{n}"] *)
Definition suffixed (base_slug : pystr) (n : nat) : pystr :=
  base_slug ++ lit "-" ++ lit (pretty n).

(** [data.get('name', '')] *)
Definition label (data : CategoryNode) : pystr := default [] (node_name data).

(** [data['childNodes']], empty when the key is absent. *)
Definition children (data : CategoryNode) : list CategoryNode :=
  default [] (child_nodes data).

Section Flattener.
Variable U : UnicodeDB.
Variable w : World.

(** The slug-tracker step of lines 69-75: the slug to emit and the updated
    dict. *)
Definition track_slug (parent_id : option pystr) (base_slug : pystr)
    (tracker : gmap (pystr * pystr) nat) : pystr * gmap (pystr * pystr) nat :=
  let parent_key := (parent_or_root parent_id, base_slug) in
  match tracker !! parent_key with
  | Some n => (suffixed base_slug (S n), <[parent_key := S n]> tracker)
  | None => (base_slug, <[parent_key := 1%nat]> tracker)
  end.

Fixpoint parse_categories (data : CategoryNode) (parent_id : option pystr)
    (σ : Store) {struct data} : list CategoryRecord * Store :=
  let 'Node id name children := data in
  (* for child in ...: categories.extend(parse_categories(child, p, slug_tracker)) *)
  let extend_loop :=
    fix extend_loop (cs : list CategoryNode) (p : option pystr)
        (categories : list CategoryRecord) (σ : Store) {struct cs} :=
      match cs with
      | [] => (categories, σ)
      | child :: cs' =>
          let '(sub, σ1) := parse_categories child p σ in
          extend_loop cs' p (categories ++ sub) σ1
      end in
  let categories := [] in
  if decide (id = Some root) then
    match children with
    | Some cs => extend_loop cs None categories σ
    | None => (categories, σ)
    end
  else
    let category_id := uuid4 w (uuid_calls σ) in
    let name := default [] name in
    let base_slug := generate_slug U name in
    let slug_and_tracker := track_slug parent_id base_slug (slug_tracker σ) in
    let slug := slug_and_tracker.1 in
    let is_active := true in
    let updated_at := now_utc w (clock_calls σ) in
    let σ := {| slug_tracker := slug_and_tracker.2;
                uuid_calls := S (uuid_calls σ);
                clock_calls := S (clock_calls σ) |} in
    let categories :=
      categories ++ [{| cat_id := category_id; cat_parent_id := parent_id;
                        cat_name := name; cat_slug := slug;
                        cat_is_active := is_active;
                        cat_updated_at := updated_at |}] in
    match children with
    | Some ((_ :: _) as cs) => extend_loop cs (Some category_id) categories σ
    | _ => (categories, σ)
    end.

(** The loop over the children, by itself. *)
Fixpoint extend_loop (cs : list CategoryNode) (p : option pystr)
    (categories : list CategoryRecord) (σ : Store) : list CategoryRecord * Store :=
  match cs with
  | [] => (categories, σ)
  | child :: cs' =>
      let '(sub, σ1) := parse_categories child p σ in
      extend_loop cs' p (categories ++ sub) σ1
  end.

(** The record a non-root node gets at store [σ], and the store after it. *)
Definition own_record (data : CategoryNode) (parent_id : option pystr) (σ : Store)
    : CategoryRecord :=
  {| cat_id := uuid4 w (uuid_calls σ);
     cat_parent_id := parent_id;
     cat_name := label data;
     cat_slug := (track_slug parent_id (generate_slug U (label data)) (slug_tracker σ)).1;
     cat_is_active := true;
     cat_updated_at := now_utc w (clock_calls σ) |}.

Definition after_own (data : CategoryNode) (parent_id : option pystr) (σ : Store)
    : Store :=
  {| slug_tracker :=
       (track_slug parent_id (generate_slug U (label data)) (slug_tracker σ)).2;
     uuid_calls := S (uuid_calls σ);
     clock_calls := S (clock_calls σ) |}.

(** A run starts with nothing drawn. *)
Definition fresh_store (tracker : gmap (pystr * pystr) nat) : Store :=
  {| slug_tracker := tracker; uuid_calls := 0; clock_calls := 0 |}.

(** [parse_categories(data)] as [main] calls it: no parent and a new
    [slug_tracker]. *)
Definition parse_categories_call (data : CategoryNode) : list CategoryRecord :=
  (parse_categories data None (fresh_store ∅)).1.

End Flattener.

(** ** Persistence: [insert_categories] *)

(** A row of [ecom_categories] without its key column [id]. *)
Record Row := {
  row_parent_id : option pystr;
  row_name : pystr;
  row_slug : pystr;
  row_is_active : bool;
  row_updated_at : Z
}.

(** A connection: the table as committed, and the table as the open
    transaction sees it. *)
Record Connection := {
  committed : gmap pystr Row;
  in_txn : gmap pystr Row
}.

Inductive DbError := DatabaseError.

Inductive result (A : Type) :=
  | Ok (a : A)
  | Raise (e : DbError).
Arguments Ok {A} a.
Arguments Raise {A} e.

(** The row proposed for insertion, [EXCLUDED] in the query. *)
Definition excluded (r : CategoryRecord) : Row :=
  {| row_parent_id := cat_parent_id r; row_name := cat_name r;
     row_slug := cat_slug r; row_is_active := cat_is_active r;
     row_updated_at := cat_updated_at r |}.

(** [ON CONFLICT (id) DO UPDATE SET parent_id = EXCLUDED.parent_id, ...] *)
Definition do_update (old EXCLUDED : Row) : Row :=
  {| row_parent_id := row_parent_id EXCLUDED;
     row_name := row_name EXCLUDED;
     row_slug := row_slug EXCLUDED;
     row_is_active := row_is_active EXCLUDED;
     row_updated_at := row_updated_at EXCLUDED |}.

(** [INSERT ... ON CONFLICT (id) DO UPDATE] of one tuple. *)
Definition upsert_row (t : gmap pystr Row) (r : CategoryRecord) : gmap pystr Row :=
  match t !! cat_id r with
  | Some old => <[cat_id r := do_update old (excluded r)]> t
  | None => <[cat_id r := excluded r]> t
  end.

Definition upsert_rows (t : gmap pystr Row) (rs : list CategoryRecord) : gmap pystr Row :=
  foldl upsert_row t rs.

(** The pages of [execute_values]: [page] is the page being filled. *)
Fixpoint paginate_from {A} (page_size : nat) (page : list A) (seq : list A)
    : list (list A) :=
  match seq with
  | [] => match page with [] => [] | _ :: _ => [page] end
  | x :: seq' =>
      let page := page ++ [x] in
      if (length page =? page_size)%nat
      then page :: paginate_from page_size [] seq'
      else paginate_from page_size page seq'
  end.

Definition paginate {A} (seq : list A) (page_size : nat) : list (list A) :=
  paginate_from page_size [] seq.

Section Persistence.
(** The server decides whether a statement or a commit goes through
    (constraints, connectivity): it raises on a statement when [rejects]
    says so, given what the transaction sees, and on a commit when
    [commit_fails] says so. *)
Variable rejects : gmap pystr Row → list CategoryRecord → bool.
Variable commit_fails : gmap pystr Row → bool.

(** [cursor.execute] of the query with one page of tuples. *)
Definition execute (c : Connection) (page : list CategoryRecord)
    : Connection * result unit :=
  if rejects (in_txn c) page then (c, Raise DatabaseError)
  else ({| committed := committed c; in_txn := upsert_rows (in_txn c) page |}, Ok ()).

Fixpoint execute_pages (c : Connection) (pages : list (list CategoryRecord))
    : Connection * result unit :=
  match pages with
  | [] => (c, Ok ())
  | page :: pages' =>
      match execute c page with
      | (c1, Ok _) => execute_pages c1 pages'
      | (c1, Raise e) => (c1, Raise e)
      end
  end.

Definition execute_values (c : Connection) (argslist : list CategoryRecord)
    (page_size : nat) : Connection * result unit :=
  execute_pages c (paginate argslist page_size).

Definition commit (c : Connection) : Connection * result unit :=
  if commit_fails (in_txn c) then (c, Raise DatabaseError)
  else ({| committed := in_txn c; in_txn := in_txn c |}, Ok ()).

Definition rollback (c : Connection) : Connection :=
  {| committed := committed c; in_txn := committed c |}.

Definition insert_categories (connection : Connection)
    (categories : list CategoryRecord) : Connection * result nat :=
  match execute_values connection categories 1000 with
  | (c1, Ok _) =>
      match commit c1 with
      | (c2, Ok _) => (c2, Ok (length categories))
      | (c2, Raise e) => (rollback c2, Raise e)
      end
  | (c1, Raise e) => (rollback c1, Raise e)
  end.

End Persistence.

(** ** The specification's vocabulary *)

(** Pre-order: a node, then the subtrees of its children in input order. *)
Fixpoint preorder (t : CategoryNode) : list CategoryNode :=
  let 'Node _ _ cs := t in
  t :: match cs with Some l => flat_map preorder l | None => [] end.

Definition is_sentinel (t : CategoryNode) : bool :=
  bool_decide (node_id t = Some root).

(** The nodes of a tree that are not a root sentinel, in pre-order. *)
Definition non_root_nodes (t : CategoryNode) : list CategoryNode :=
  List.filter (λ n, negb (is_sentinel n)) (preorder t).

(** The number of non-root nodes of a tree. *)
Fixpoint count_non_root (t : CategoryNode) : nat :=
  let 'Node _ _ cs := t in
  ((if is_sentinel t then 0 else 1)
   + match cs with Some l => sum_list (map count_non_root l) | None => 0 end)%nat.

(** The counter the tracker holds for a key, 0 when the key is absent. *)
Definition tracked (tr : gmap (pystr * pystr) nat) (k : pystr * pystr) : nat :=
  default 0%nat (tr !! k).

(** A key that is present has been seen at least once. *)
Definition tracker_ok (tr : gmap (pystr * pystr) nat) : Prop :=
  ∀ k, tr !! k ≠ Some 0%nat.

Section SlugSpec.
Variable U : UnicodeDB.

(** A character that stays: a word character, whitespace or a hyphen. *)
Definition kept (c : N) : bool := is_word U c || is_space U c || is_hyphen c.

Definition remove_others (s : pystr) : pystr := List.filter kept s.

Definition separator (c : N) : bool := is_space U c || is_hyphen c.

(** A run of separators becomes a single hyphen: a separator followed by
    another is dropped, the last one of a run becomes the hyphen. *)
Fixpoint collapse_runs (s : pystr) : pystr :=
  match s with
  | [] => []
  | c :: s' =>
      if separator c then
        match s' with
        | [] => [hyphen]
        | c' :: _ => if separator c' then collapse_runs s' else hyphen :: collapse_runs s'
        end
      else c :: collapse_runs s'
  end.

Definition trim_leading (s : pystr) : pystr := lstrip is_hyphen s.

(** A hyphen is trailing when only hyphens follow it. *)
Fixpoint trim_trailing (s : pystr) : pystr :=
  match s with
  | [] => []
  | c :: s' =>
      match trim_trailing s' with
      | [] => if is_hyphen c then [] else [c]
      | rest => c :: rest
      end
  end.

Definition slug_spec (name : pystr) : pystr :=
  trim_trailing (trim_leading (collapse_runs (remove_others (lower U name)))).

(** The occurrence key of a record: (parent identifier or sentinel, base
    slug). *)
Definition key_of (r : CategoryRecord) : pystr * pystr :=
  (parent_or_root (cat_parent_id r), generate_slug U (cat_name r)).

(** How many records of [out] have the key [k]. *)
Definition occurrences (k : pystr * pystr) (out : list CategoryRecord) : nat :=
  length (filter (λ r, key_of r = k) out).

(** The slug of the [n]-th occurrence of a key. *)
Definition nth_slug (base_slug : pystr) (n : nat) : pystr :=
  if decide (n = 1%nat) then base_slug else suffixed base_slug n.

(** A sequence of records whose slugs come from the tracker, one after the
    other, taking the dict from [tr] to [tr']. *)
Inductive Emits : gmap (pystr * pystr) nat → list CategoryRecord →
    gmap (pystr * pystr) nat → Prop :=
  | Emits_nil tr : Emits tr [] tr
  | Emits_cons tr r tr1 out tr2 :
      track_slug (cat_parent_id r) (generate_slug U (cat_name r)) tr
        = (cat_slug r, tr1) →
      Emits tr1 out tr2 →
      Emits tr (r :: out) tr2.

End SlugSpec.

(** ** Identifiers as UUID strings

    How a parent shows in the tracker, when parents are named by the number
    of the draw that made their identifier. *)

(** The first [n] identifiers of a world are as [str(uuid.uuid4())] gives
    them: not empty, not the word [root], and no two alike. *)
Definition fresh_ids (w : World) (n : nat) : Prop :=
  (∀ i, (i < n)%nat → truthy (uuid4 w i) = true ∧ uuid4 w i ≠ root)
  ∧ (∀ i j, (i < n)%nat → (j < n)%nat → uuid4 w i = uuid4 w j → i = j).





(** ** Sample inputs *)

Definition leaf (i name : string) : CategoryNode :=
  Node (Some (lit i)) (Some (lit name)) None.
Definition branch (i name : string) (cs : list CategoryNode) : CategoryNode :=
  Node (Some (lit i)) (Some (lit name)) (Some cs).

Definition demo_world : World :=
  {| uuid4 := λ n, lit ("uuid-" +:+ pretty n);
     now_utc := λ n, (1700000000 + Z.of_nat n)%Z |}.



(** A server that refuses a statement with an empty slug in it, and commits
    whatever it accepted. *)
Definition rejects_empty_slug (_ : gmap pystr Row) (page : list CategoryRecord) : bool :=
  existsb (λ r, negb (truthy (cat_slug r))) page.
Definition commit_succeeds (_ : gmap pystr Row) : bool := false.
Definition accepts_all (_ : gmap pystr Row) (_ : list CategoryRecord) : bool := false.

Definition new_connection : Connection := {| committed := ∅; in_txn := ∅ |}.

Definition sample_record (i name slug : string) : CategoryRecord :=
  {| cat_id := lit i; cat_parent_id := None; cat_name := lit name;
     cat_slug := lit slug; cat_is_active := true; cat_updated_at := 1700000000 |}.

(** Three siblings under the root: two named alike, and one whose own name
    slugs to the suffixed form of theirs. *)
Definition colliding_tree : CategoryNode :=
  branch "root" "All" [leaf "1" "Shoes"; leaf "2" "Shoes"; leaf "3" "Shoes 2"].

Definition mens_shoes_tree : CategoryNode :=
  branch "root" "All"
    [leaf "1" "Men's Shoes"; leaf "2" "Men's Shoes"; leaf "3" "Men's Shoes"].

(** A sentinel below an ordinary node. *)
Definition nested_root_tree : CategoryNode :=
  branch "root" "All"
    [branch "10" "Clothing"
       [leaf "11" "Shirts"; branch "root" "Inner" [leaf "12" "Hats"]; leaf "13" "Socks"]].

(** ** Options, option values and links

    The database helpers of [seeding.py] and [link_category_options.py]. *)

(** A row of [ecom_options]. *)
Record OptionRow := {
  opt_id : pystr;
  opt_code : pystr;
  opt_name : pystr;
  opt_description : pystr;
  opt_is_active : bool;
  opt_created_at : Z;
  opt_updated_at : Z
}.

(** A row of [ecom_option_values]. *)
Record OptionValueRow := {
  val_id : pystr;
  val_option_id : pystr;
  val_value : pystr;
  val_position : nat
}.

(** The three tables, each the rows it holds, oldest first.  A link row is
    its [(category_id, option_id)] pair. *)
Record Database := {
  ecom_options : list OptionRow;
  ecom_option_values : list OptionValueRow;
  ecom_category_option_suggestions : list (pystr * pystr)
}.

(** The statements the helpers send. *)
Inductive Statement :=
  | SelectLink (category_id option_id : pystr)
  | InsertLink (category_id option_id : pystr)
  | SelectOptionByCode (code : pystr)
  | InsertOption (row : OptionRow)
  | SelectOptionValue (option_id value : pystr)
  | InsertOptionValue (row : OptionValueRow).

(** What an open connection carries along: the tables as the transaction
    sees them, and how many identifiers and clock readings were drawn. *)
Record Session := {
  db : Database;
  uuids_drawn : nat;
  clock_reads : nat
}.

(** A computation on a session that returns or raises. *)
Definition Db (A : Type) : Type := Session → result A * Session.

Definition db_ret {A} (a : A) : Db A := λ s, (Ok a, s).

Definition db_bind {A B} (m : Db A) (k : A → Db B) : Db B :=
  λ s, match m s with
       | (Ok a, s') => k a s'
       | (Raise e, s') => (Raise e, s')
       end.

Notation "'let*' x ':=' m 'in' k" := (db_bind m (λ x, k))
  (at level 10, x name, m at level 100, k at level 200).

(** The effect of a statement that went through. *)
Definition run_statement (stmt : Statement) (d : Database) : Database :=
  match stmt with
  | InsertLink category_id option_id =>
      {| ecom_options := ecom_options d;
         ecom_option_values := ecom_option_values d;
         ecom_category_option_suggestions :=
           ecom_category_option_suggestions d ++ [(category_id, option_id)] |}
  | InsertOption row =>
      {| ecom_options := ecom_options d ++ [row];
         ecom_option_values := ecom_option_values d;
         ecom_category_option_suggestions := ecom_category_option_suggestions d |}
  | InsertOptionValue row =>
      {| ecom_options := ecom_options d;
         ecom_option_values := ecom_option_values d ++ [row];
         ecom_category_option_suggestions := ecom_category_option_suggestions d |}
  | SelectLink _ _ | SelectOptionByCode _ | SelectOptionValue _ _ => d
  end.

Section Cursor.
Variable w : World.
(** The server raises on a statement when [rejects] says so, given what the
    transaction sees. *)
Variable rejects : Database → Statement → bool.

(** [cur.execute(...)] *)
Definition cur_execute (stmt : Statement) : Db unit :=
  λ s, if rejects (db s) stmt then (Raise DatabaseError, s)
       else (Ok (), {| db := run_statement stmt (db s);
                       uuids_drawn := uuids_drawn s;
                       clock_reads := clock_reads s |}).

(** [cur.fetchone()] after a [SELECT]: the first row of the result, if any. *)
Definition fetchone {A B} (rows : Database → list A) (matches : A → bool)
    (column : A → B) : Db (option B) :=
  λ s, (Ok (column <$> head (List.filter matches (rows (db s)))), s).

(** [str(uuid.uuid4())] *)
Definition draw_uuid : Db pystr :=
  λ s, (Ok (uuid4 w (uuids_drawn s)),
        {| db := db s; uuids_drawn := S (uuids_drawn s); clock_reads := clock_reads s |}).

(** [datetime.utcnow()] *)
Definition utcnow : Db Z :=
  λ s, (Ok (now_utc w (clock_reads s)),
        {| db := db s; uuids_drawn := uuids_drawn s; clock_reads := S (clock_reads s) |}).

Definition is_link (category_id option_id : pystr) (row : pystr * pystr) : bool :=
  bool_decide (row = (category_id, option_id)).

Definition link_category_to_option (category_id option_id : pystr) : Db bool :=
  let* _ := cur_execute (SelectLink category_id option_id) in
  let* row := fetchone ecom_category_option_suggestions
                (is_link category_id option_id) (λ _, 1%nat) in
  match row with
  | Some _ => db_ret false
  | None =>
      let* _ := cur_execute (InsertLink category_id option_id) in
      db_ret true
  end.

Definition has_code (code : pystr) (row : OptionRow) : bool :=
  bool_decide (opt_code row = code).

Definition get_option_id_by_code (code : pystr) : Db (option pystr) :=
  let* _ := cur_execute (SelectOptionByCode code) in
  let* row := fetchone ecom_options (has_code code) opt_id in
  db_ret row.

Definition get_or_create_option (code name : pystr) : Db pystr :=
  let* _ := cur_execute (SelectOptionByCode code) in
  let* row := fetchone ecom_options (has_code code) opt_id in
  match row with
  | Some id => db_ret id
  | None =>
      let* option_id := draw_uuid in
      let* created_at := utcnow in
      let* updated_at := utcnow in
      let* _ := cur_execute (InsertOption
                  {| opt_id := option_id; opt_code := code; opt_name := name;
                     opt_description := name ++ lit " option";
                     opt_is_active := true;
                     opt_created_at := created_at;
                     opt_updated_at := updated_at |}) in
      db_ret option_id
  end.

Definition is_value (option_id value : pystr) (row : OptionValueRow) : bool :=
  bool_decide (val_option_id row = option_id ∧ val_value row = value).

(** The loop of [insert_option_values], [position] being what [enumerate]
    gives for the head of [values]. *)
Fixpoint insert_option_values_from (position : nat) (option_id : pystr)
    (values : list pystr) : Db unit :=
  match values with
  | [] => db_ret ()
  | value :: values' =>
      let* _ := cur_execute (SelectOptionValue option_id value) in
      let* row := fetchone ecom_option_values (is_value option_id value)
                    (λ _, 1%nat) in
      match row with
      | Some _ => insert_option_values_from (S position) option_id values'
      | None =>
          let* id := draw_uuid in
          let* _ := cur_execute (InsertOptionValue
                      {| val_id := id; val_option_id := option_id;
                         val_value := value; val_position := position |}) in
          insert_option_values_from (S position) option_id values'
      end
  end.

Definition insert_option_values (option_id : pystr) (values : list pystr) : Db unit :=
  insert_option_values_from 1 option_id values.

End Cursor.

Definition empty_database : Database :=
  {| ecom_options := []; ecom_option_values := [];
     ecom_category_option_suggestions := [] |}.

Definition new_session (d : Database) : Session :=
  {| db := d; uuids_drawn := 0; clock_reads := 0 |}.

Definition never_rejects (_ : Database) (_ : Statement) : bool := false.

(** * Properties *)

Example slug_shoes_2 U : generate_slug U (lit "  --Shoes -  2!- ") = lit "shoes-2".
Proof. vm_compute. reflexivity. Qed.

(** ** Induction on trees *)

Lemma CategoryNode_tree_ind (P : CategoryNode → Prop) :
  (∀ id name, P (Node id name None)) →
  (∀ id name cs, Forall P cs → P (Node id name (Some cs))) →
  ∀ t, P t.
Proof.
  intros Hleaf Hnode. fix IH 1. intros [id name [cs|]]; [|apply Hleaf].
  apply Hnode. induction cs as [|c cs IHcs]; constructor; [apply IH | apply IHcs].
Qed.

(** ** Pre-order and counting *)

Lemma filter_flat_map {A B} (f : B → bool) (g : A → list B) (l : list A) :
  List.filter f (flat_map g l) = flat_map (λ x, List.filter f (g x)) l.
Proof.
  induction l as [|x l IH]; [done|]. cbn [flat_map].
  by rewrite List.filter_app, IH.
Qed.

Lemma children_Some id name cs : children (Node id name (Some cs)) = cs.
Proof. done. Qed.

Lemma children_None id name : children (Node id name None) = [].
Proof. done. Qed.

Lemma preorder_eq data : preorder data = data :: flat_map preorder (children data).
Proof. by destruct data as [id name [cs|]]. Qed.

Lemma non_root_nodes_eq data :
  non_root_nodes data
  = (if is_sentinel data then [] else [data]) ++ flat_map non_root_nodes (children data).
Proof.
  unfold non_root_nodes. rewrite preorder_eq. cbn [List.filter].
  rewrite filter_flat_map. by destruct (is_sentinel data).
Qed.

Lemma count_non_root_eq data :
  count_non_root data
  = ((if is_sentinel data then 0 else 1)
     + sum_list (map count_non_root (children data)))%nat.
Proof. by destruct data as [id name [cs|]]. Qed.

Lemma is_sentinel_true data : node_id data = Some root → is_sentinel data = true.
Proof. intros H. unfold is_sentinel. by rewrite bool_decide_eq_true. Qed.

Lemma is_sentinel_false data : node_id data ≠ Some root → is_sentinel data = false.
Proof. intros H. unfold is_sentinel. by rewrite bool_decide_eq_false. Qed.

Lemma length_non_root_nodes data : length (non_root_nodes data) = count_non_root data.
Proof.
  induction data as [id name|id name cs IH] using CategoryNode_tree_ind;
    rewrite non_root_nodes_eq, count_non_root_eq, length_app.
  - unfold children; cbn. by destruct (is_sentinel _).
  - f_equal; [by destruct (is_sentinel _)|].
    change (children (Node id name (Some cs))) with cs.
    induction IH as [|c cs Hc _ IHcs]; [done|].
    cbn [flat_map map]. rewrite length_app, Hc, IHcs. done.
Qed.

Section FlattenerFacts.
Variable U : UnicodeDB.
Variable w : World.

Lemma extend_loop_acc cs p acc σ :
  extend_loop U w cs p acc σ
  = (acc ++ (extend_loop U w cs p [] σ).1, (extend_loop U w cs p [] σ).2).
Proof.
  revert acc σ. induction cs as [|c cs IH]; intros acc σ; simpl.
  - by rewrite app_nil_r.
  - destruct (parse_categories U w c p σ) as [sub σ1].
    rewrite (IH (acc ++ sub)), (IH sub); simpl. by rewrite app_assoc.
Qed.

Lemma extend_loop_cons c cs p σ :
  extend_loop U w (c :: cs) p [] σ
  = ((parse_categories U w c p σ).1
       ++ (extend_loop U w cs p [] (parse_categories U w c p σ).2).1,
     (extend_loop U w cs p [] (parse_categories U w c p σ).2).2).
Proof.
  simpl. destruct (parse_categories U w c p σ) as [sub σ1]; simpl.
  by rewrite extend_loop_acc.
Qed.

(** The body of [parse_categories], with its loop named. *)
Lemma parse_categories_eq id name cs p σ :
  parse_categories U w (Node id name cs) p σ
  = if decide (id = Some root) then
      match cs with
      | Some cs => extend_loop U w cs None [] σ
      | None => ([], σ)
      end
    else
      let data := Node id name cs in
      match cs with
      | Some ((_ :: _) as cs) =>
          extend_loop U w cs (Some (uuid4 w (uuid_calls σ)))
            ([] ++ [own_record U w data p σ]) (after_own U data p σ)
      | _ => ([] ++ [own_record U w data p σ], after_own U data p σ)
      end.
Proof.
  unfold own_record, after_own, label; cbn [node_name].
  cbn [parse_categories].
  destruct (decide (id = Some root)); reflexivity.
Qed.

(** A sentinel emits nothing and hands its children to the loop with no
    parent. *)
Lemma parse_categories_sentinel data p σ :
  node_id data = Some root →
  parse_categories U w data p σ = extend_loop U w (children data) None [] σ.
Proof.
  destruct data as [id name cs]; cbn [node_id]; intros ->.
  rewrite parse_categories_eq, decide_True by done. by destruct cs.
Qed.

(** Any other node emits its record and hands its children to the loop with
    its own identifier as their parent. *)
Lemma parse_categories_node data p σ :
  node_id data ≠ Some root →
  parse_categories U w data p σ
  = (own_record U w data p σ
       :: (extend_loop U w (children data) (Some (uuid4 w (uuid_calls σ))) []
             (after_own U data p σ)).1,
     (extend_loop U w (children data) (Some (uuid4 w (uuid_calls σ))) []
             (after_own U data p σ)).2).
Proof.
  destruct data as [id name cs]; cbn [node_id]; intros Hid.
  rewrite parse_categories_eq, decide_False by done.
  cbv zeta. unfold children; cbn [child_nodes].
  destruct cs as [[|c cs]|]; try done.
  cbn [default]. by rewrite extend_loop_acc.
Qed.

(** Induction along a run of [parse_categories]: [P] speaks of one call,
    [Q] of the loop over a list of children. *)
Lemma parse_categories_run_ind
    (P : CategoryNode → option pystr → Store → list CategoryRecord → Store → Prop)
    (Q : list CategoryNode → option pystr → Store → list CategoryRecord → Store → Prop) :
  (∀ p σ, Q [] p σ [] σ) →
  (∀ c cs p σ out1 σ1 out2 σ2,
      P c p σ out1 σ1 → Q cs p σ1 out2 σ2 → Q (c :: cs) p σ (out1 ++ out2) σ2) →
  (∀ data p σ out σ',
      node_id data = Some root →
      Q (children data) None σ out σ' → P data p σ out σ') →
  (∀ data p σ out σ',
      node_id data ≠ Some root →
      Q (children data) (Some (uuid4 w (uuid_calls σ))) (after_own U data p σ) out σ' →
      P data p σ (own_record U w data p σ :: out) σ') →
  ∀ data p σ,
    P data p σ (parse_categories U w data p σ).1 (parse_categories U w data p σ).2.
Proof.
  intros Hnil Hcons Hroot Hnode.
  assert (Hloop : ∀ cs,
    Forall (λ c, ∀ p σ,
      P c p σ (parse_categories U w c p σ).1 (parse_categories U w c p σ).2) cs →
    ∀ p σ, Q cs p σ (extend_loop U w cs p [] σ).1 (extend_loop U w cs p [] σ).2).
  { induction 1 as [|c cs Hc _ IH]; intros p σ; [apply Hnil|].
    rewrite extend_loop_cons. cbn [fst snd]. eapply Hcons; [apply Hc | apply IH]. }
  assert (Hstep : ∀ data,
    Forall (λ c, ∀ p σ,
      P c p σ (parse_categories U w c p σ).1 (parse_categories U w c p σ).2)
      (children data) →
    ∀ p σ,
      P data p σ (parse_categories U w data p σ).1 (parse_categories U w data p σ).2).
  { intros data Hcs p σ. destruct (decide (node_id data = Some root)) as [Hid|Hid].
    - rewrite parse_categories_sentinel by done. apply Hroot; [done|by apply Hloop].
    - rewrite parse_categories_node by done. cbn [fst snd].
      apply Hnode; [done|by apply Hloop]. }
  induction data as [id name|id name cs IH] using CategoryNode_tree_ind;
    apply Hstep; [constructor|exact IH].
Qed.

(** The loop over children, seen through the same induction. *)
Lemma extend_loop_run_ind
    (P : CategoryNode → option pystr → Store → list CategoryRecord → Store → Prop)
    (Q : list CategoryNode → option pystr → Store → list CategoryRecord → Store → Prop) :
  (∀ p σ, Q [] p σ [] σ) →
  (∀ c cs p σ out1 σ1 out2 σ2,
      P c p σ out1 σ1 → Q cs p σ1 out2 σ2 → Q (c :: cs) p σ (out1 ++ out2) σ2) →
  (∀ data p σ,
      P data p σ (parse_categories U w data p σ).1 (parse_categories U w data p σ).2) →
  ∀ cs p σ, Q cs p σ (extend_loop U w cs p [] σ).1 (extend_loop U w cs p [] σ).2.
Proof.
  intros Hnil Hcons HP cs. induction cs as [|c cs IH]; intros p σ; [apply Hnil|].
  rewrite extend_loop_cons. cbn [fst snd]. eapply Hcons; [apply HP | apply IH].
Qed.

(** The names of the records are the labels of the non-root nodes, in
    pre-order. *)
Lemma parse_categories_names data p σ :
  cat_name <$> (parse_categories U w data p σ).1 = label <$> non_root_nodes data.
Proof.
  apply (parse_categories_run_ind
    (λ data _ _ out _, cat_name <$> out = label <$> non_root_nodes data)
    (λ cs _ _ out _, cat_name <$> out = label <$> flat_map non_root_nodes cs)).
  - done.
  - intros c cs _ _ out1 _ out2 _ H1 H2. cbn [flat_map].
    by rewrite !fmap_app, H1, H2.
  - intros d _ _ out _ Hid H. by rewrite non_root_nodes_eq, is_sentinel_true.
  - intros d p' σ0 out _ Hid H. rewrite non_root_nodes_eq, is_sentinel_false by done.
    cbn. by rewrite H.
Qed.

Lemma extend_loop_names cs p σ :
  cat_name <$> (extend_loop U w cs p [] σ).1 = label <$> flat_map non_root_nodes cs.
Proof.
  apply (extend_loop_run_ind
    (λ data _ _ out _, cat_name <$> out = label <$> non_root_nodes data)
    (λ cs _ _ out _, cat_name <$> out = label <$> flat_map non_root_nodes cs)).
  - done.
  - intros c cs' _ _ out1 _ out2 _ H1 H2. cbn [flat_map].
    by rewrite !fmap_app, H1, H2.
  - intros. apply parse_categories_names.
Qed.

Lemma parse_categories_length data p σ :
  length (parse_categories U w data p σ).1 = count_non_root data.
Proof.
  rewrite <- length_non_root_nodes.
  rewrite <- (length_fmap cat_name), parse_categories_names. apply length_fmap.
Qed.


(** A record's parent is the call's parent, or none (below a sentinel), or
    the identifier of a record emitted before it. *)
Lemma parse_categories_parents data p σ :
  ∀ j r, (parse_categories U w data p σ).1 !! j = Some r →
    cat_parent_id r = p ∨ cat_parent_id r = None
    ∨ ∃ i r', (i < j)%nat ∧ (parse_categories U w data p σ).1 !! i = Some r'
              ∧ cat_parent_id r = Some (cat_id r').
Proof.
  pose (R := λ (p : option pystr) (out : list CategoryRecord),
    ∀ j r, out !! j = Some r →
      cat_parent_id r = p ∨ cat_parent_id r = None
      ∨ ∃ i r', (i < j)%nat ∧ out !! i = Some r' ∧ cat_parent_id r = Some (cat_id r')).
  apply (parse_categories_run_ind (λ _ p _ out _, R p out) (λ _ p _ out _, R p out));
    unfold R; clear R.
  - intros ? ? j r Hj. by rewrite lookup_nil in Hj.
  - intros c cs p' _ out1 _ out2 _ H1 H2 j r Hj.
    apply lookup_app_Some in Hj as [Hj|[Hlen Hj]].
    + destruct (H1 j r Hj) as [?|[?|(i & r' & Hi & Hr' & ?)]]; [by left|by right; left|].
      right; right. exists i, r'. split_and!; [done| |done].
      by apply lookup_app_l_Some.
    + destruct (H2 _ r Hj) as [?|[?|(i & r' & Hi & Hr' & ?)]]; [by left|by right; left|].
      right; right. exists (length out1 + i)%nat, r'. split_and!; [lia| |done].
      by rewrite lookup_app_r, Nat.add_comm, Nat.add_sub by lia.
  - intros d p' _ out _ _ H j r Hj.
    destruct (H j r Hj) as [?|[?|?]]; [by right; left|by right; left|by right; right].
  - intros d p' σ0 out _ _ H [|j] r Hj.
    + injection Hj as <-. by left.
    + cbn in Hj. destruct (H j r Hj) as [Hp|[?|(i & r' & Hi & Hr' & ?)]].
      * right; right. exists 0%nat, (own_record U w d p' σ0). split_and!; [lia|done|done].
      * by right; left.
      * right; right. exists (S i), r'. split_and!; [lia|done|done].
Qed.

(** The output of the loop is the outputs of the calls on the children, one
    after the other. *)
Lemma extend_loop_segments cs p σ :
  ∃ segs, (extend_loop U w cs p [] σ).1 = concat segs
    ∧ Forall2 (λ c seg, ∃ σc, seg = (parse_categories U w c p σc).1) cs segs.
Proof.
  revert σ. induction cs as [|c cs IH]; intros σ.
  - exists []. split; [done|constructor].
  - rewrite extend_loop_cons. cbn [fst].
    destruct (IH (parse_categories U w c p σ).2) as (segs & -> & Hsegs).
    exists ((parse_categories U w c p σ).1 :: segs). split; [done|].
    constructor; [by exists σ|done].
Qed.

(** *** The slug tracker *)

Lemma Emits_app tr out1 tr1 out2 tr2 :
  Emits U tr out1 tr1 → Emits U tr1 out2 tr2 → Emits U tr (out1 ++ out2) tr2.
Proof.
  induction 1 as [|tr r tr' out tr'' Hr _ IH]; intros H2; [done|].
  cbn. eapply Emits_cons; [exact Hr|by apply IH].
Qed.

Lemma parse_categories_emits data p σ :
  Emits U (slug_tracker σ) (parse_categories U w data p σ).1
          (slug_tracker (parse_categories U w data p σ).2).
Proof.
  apply (parse_categories_run_ind
    (λ _ _ σ out σ', Emits U (slug_tracker σ) out (slug_tracker σ'))
    (λ _ _ σ out σ', Emits U (slug_tracker σ) out (slug_tracker σ'))).
  - intros. constructor.
  - intros. by eapply Emits_app.
  - done.
  - intros d p' σ0 out σ' _ H. eapply Emits_cons; [|exact H].
    cbn. by destruct (track_slug _ _ _).
Qed.

Lemma track_slug_spec p base tr :
  tracker_ok tr →
  track_slug p base tr
  = (nth_slug base (S (tracked tr (parent_or_root p, base))),
     <[(parent_or_root p, base) := S (tracked tr (parent_or_root p, base))]> tr).
Proof.
  intros Hok. unfold track_slug, tracked, nth_slug.
  destruct (tr !! (parent_or_root p, base)) as [n|] eqn:Hk; cbn.
  - rewrite decide_False; [done|]. intros [= ->]. by apply (Hok _ Hk).
  - by rewrite decide_True.
Qed.

Lemma tracked_insert tr k n k' :
  tracked (<[k := n]> tr) k' = if decide (k = k') then n else tracked tr k'.
Proof. unfold tracked. rewrite lookup_insert. by destruct (decide (k = k')). Qed.

Lemma occurrences_cons k r out :
  occurrences U k (r :: out)
  = ((if decide (key_of U r = k) then 1 else 0) + occurrences U k out)%nat.
Proof.
  unfold occurrences. rewrite filter_cons.
  by destruct (decide (key_of U r = k)).
Qed.

(** What the tracker does along a sequence: it counts the occurrences of
    each key, and the [n]-th occurrence of a key gets [nth_slug _ n]. *)
Lemma Emits_count tr out tr' :
  Emits U tr out tr' →
  tracker_ok tr →
  tracker_ok tr'
  ∧ (∀ k, tracked tr' k = (tracked tr k + occurrences U k out)%nat)
  ∧ (∀ j r, out !! j = Some r →
       cat_slug r
       = nth_slug (generate_slug U (cat_name r))
           (tracked tr (key_of U r) + occurrences U (key_of U r) (take (S j) out))).
Proof.
  induction 1 as [tr|tr r tr1 out tr2 Hr _ IH]; intros Hok.
  - split_and!; [done|intros; cbn; lia|intros j r Hj; by rewrite lookup_nil in Hj].
  - rewrite track_slug_spec in Hr by done. fold (key_of U r) in Hr.
    injection Hr as Hslug <-.
    destruct IH as (Hok2 & Hcnt & Hslugs).
    { intros k. rewrite lookup_insert. destruct (decide (key_of U r = k)); [done|apply Hok]. }
    split_and!; [done| |].
    + intros k. rewrite Hcnt, tracked_insert, occurrences_cons.
      destruct (decide (key_of U r = k)) as [->|]; lia.
    + intros [|j] r' Hj.
      * injection Hj as <-. cbn [take].
        rewrite occurrences_cons, decide_True by done.
        rewrite <- Hslug. f_equal. rewrite take_0. cbn. lia.
      * cbn in Hj. rewrite (Hslugs j r' Hj). f_equal.
        cbn [take]. rewrite tracked_insert, occurrences_cons.
        destruct (decide (key_of U r = key_of U r')) as [->|]; lia.
Qed.

End FlattenerFacts.

(** ** The slug of a name *)

Section SlugFacts.
Variable U : UnicodeDB.

Lemma hyphen_or_space_separator c : hyphen_or_space U c = separator U c.
Proof. apply orb_comm. Qed.

Lemma re_sub_set_remove_others s :
  re_sub_set (not_word_space_hyphen U) [] s = remove_others U s.
Proof.
  unfold re_sub_set, remove_others. induction s as [|c s IH]; [done|].
  rewrite bind_cons, IH. cbn [List.filter].
  unfold not_word_space_hyphen. fold (kept U c). by destruct (kept U c).
Qed.

Lemma collapse_runs_cons c s :
  collapse_runs U (c :: s)
  = if separator U c then
      match s with
      | [] => [hyphen]
      | c' :: _ =>
          if separator U c' then collapse_runs U s else hyphen :: collapse_runs U s
      end
    else c :: collapse_runs U s.
Proof. done. Qed.

(** A string that starts with a separator collapses to one that starts with
    a hyphen. *)
Lemma collapse_runs_separator c s :
  separator U c = true →
  collapse_runs U (c :: s) = hyphen :: tail (collapse_runs U (c :: s)).
Proof.
  revert c. induction s as [|c' s IH]; intros c Hc;
    rewrite (collapse_runs_cons c), Hc; [done|].
  destruct (separator U c') eqn:Hc'; [|done]. by apply IH.
Qed.

Lemma re_sub_plus_from_collapse s :
  re_sub_plus_from (hyphen_or_space U) [hyphen] false s = collapse_runs U s
  ∧ re_sub_plus_from (hyphen_or_space U) [hyphen] true s
    = match s with
      | [] => []
      | c :: _ => if separator U c then tail (collapse_runs U s) else collapse_runs U s
      end.
Proof.
  induction s as [|c s [IHf IHt]]; [done|].
  cbn [re_sub_plus_from]. rewrite hyphen_or_space_separator.
  destruct (separator U c) eqn:Hc.
  - rewrite IHt. destruct s as [|c' s].
    + cbn. by rewrite Hc.
    + rewrite (collapse_runs_cons c (c' :: s)), Hc. cbn [app].
      destruct (separator U c') eqn:Hc'; [|done].
      split; [|done]. by rewrite <- collapse_runs_separator.
  - rewrite IHf, (collapse_runs_cons c s), Hc. done.
Qed.

Lemma lstrip_snoc set s c :
  lstrip set (s ++ [c])
  = match lstrip set s with
    | [] => if set c then [] else [c]
    | rest => rest ++ [c]
    end.
Proof.
  induction s as [|c' s IH]; [done|].
  cbn. by destruct (set c').
Qed.

Lemma rstrip_trim_trailing s : rstrip is_hyphen s = trim_trailing s.
Proof.
  unfold rstrip. induction s as [|c s IH]; [done|].
  rewrite reverse_cons, lstrip_snoc. cbn [trim_trailing]. rewrite <- IH.
  destruct (lstrip is_hyphen (reverse s)) as [|c' rest].
  - by destruct (is_hyphen c).
  - rewrite reverse_snoc.
    destruct (reverse (c' :: rest)) eqn:Hrev; [|done].
    apply (f_equal length) in Hrev. by rewrite length_reverse in Hrev.
Qed.

Lemma generate_slug_spec name : generate_slug U name = slug_spec U name.
Proof.
  unfold generate_slug, slug_spec, strip, re_sub_plus, trim_leading.
  rewrite re_sub_set_remove_others, rstrip_trim_trailing.
  by rewrite (proj1 (re_sub_plus_from_collapse _)).
Qed.

End SlugFacts.

(** ** Upserts and transactions *)

Lemma upsert_row_insert t r : upsert_row t r = <[cat_id r := excluded r]> t.
Proof. unfold upsert_row. by destruct (t !! cat_id r). Qed.

Lemma upsert_rows_union t rs : upsert_rows t rs = upsert_rows ∅ rs ∪ t.
Proof.
  unfold upsert_rows. revert t. induction rs as [|r rs IH]; intros t; cbn [foldl].
  - by rewrite (left_id_L ∅ (∪)).
  - rewrite (IH (upsert_row t r)), (IH (upsert_row ∅ r)), !upsert_row_insert.
    rewrite <- (assoc_L (∪)). f_equal.
    by rewrite insert_empty, <- insert_union_singleton_l.
Qed.

Lemma upsert_rows_app t rs1 rs2 :
  upsert_rows t (rs1 ++ rs2) = upsert_rows (upsert_rows t rs1) rs2.
Proof. apply foldl_app. Qed.

Lemma upsert_rows_idemp t rs : upsert_rows (upsert_rows t rs) rs = upsert_rows t rs.
Proof.
  rewrite (upsert_rows_union (upsert_rows t rs)), (upsert_rows_union t).
  by rewrite (assoc_L (∪)), (idemp_L (∪)).
Qed.

Lemma paginate_from_concat {A} page_size (page seq : list A) :
  concat (paginate_from page_size page seq) = page ++ seq.
Proof.
  revert page. induction seq as [|x seq IH]; intros page; cbn [paginate_from].
  - destruct page; cbn; by rewrite ?app_nil_r.
  - destruct (_ =? _)%nat; cbn [concat]; rewrite IH; by rewrite <- ?app_assoc.
Qed.

Lemma paginate_concat {A} (seq : list A) page_size :
  concat (paginate seq page_size) = seq.
Proof. apply paginate_from_concat. Qed.

Section PersistenceFacts.
Variable rejects : gmap pystr Row → list CategoryRecord → bool.
Variable commit_fails : gmap pystr Row → bool.

(** Statements never touch what is committed. *)
Lemma execute_pages_committed c pages :
  committed (execute_pages rejects c pages).1 = committed c.
Proof.
  revert c. induction pages as [|page pages IH]; intros c; [done|].
  cbn [execute_pages]. unfold execute.
  destruct (rejects (in_txn c) page); [done|]. by rewrite IH.
Qed.

(** When every statement goes through, the transaction sees all rows
    upserted. *)
Lemma execute_pages_ok c pages c' u :
  execute_pages rejects c pages = (c', Ok u) →
  in_txn c' = upsert_rows (in_txn c) (concat pages).
Proof.
  revert c. induction pages as [|page pages IH]; intros c; cbn [execute_pages].
  - by intros [= <-].
  - unfold execute. destruct (rejects (in_txn c) page); [done|].
    intros H. rewrite (IH _ H). cbn [in_txn concat]. by rewrite upsert_rows_app.
Qed.

(** A rejected statement, after statements that went through, makes
    [execute_values] raise. *)
Lemma execute_pages_rejected c pre page post :
  (execute_pages rejects c pre).2 = Ok () →
  rejects (in_txn (execute_pages rejects c pre).1) page = true →
  (execute_pages rejects c (pre ++ page :: post)).2 = Raise DatabaseError.
Proof.
  revert c. induction pre as [|p0 pre IH]; intros c; cbn [execute_pages app].
  - unfold execute. cbn [fst]. by intros _ ->.
  - unfold execute. destruct (rejects (in_txn c) p0); [done|]. apply IH.
Qed.

(** All or nothing. *)
Lemma insert_categories_cases c categories :
  let '(c', res) := insert_categories rejects commit_fails c categories in
  (res = Ok (length categories)
     ∧ committed c' = upsert_rows (in_txn c) categories
     ∧ in_txn c' = committed c')
  ∨ (res = Raise DatabaseError ∧ committed c' = committed c ∧ in_txn c' = committed c).
Proof.
  unfold insert_categories, execute_values.
  pose proof (execute_pages_committed c (paginate categories 1000)) as Hcom.
  destruct (execute_pages rejects c (paginate categories 1000)) as [c1 [u|[]]] eqn:Hex;
    cbn [fst] in Hcom.
  - apply execute_pages_ok in Hex. rewrite paginate_concat in Hex.
    unfold commit. destruct (commit_fails (in_txn c1)).
    + right. by rewrite <- Hcom.
    + left. by rewrite <- Hex.
  - right. by rewrite <- Hcom.
Qed.

End PersistenceFacts.

(** ** Two runs *)

Section TwoRuns.
Variable U : UnicodeDB.
Variables w1 w2 : World.


End TwoRuns.

(** Slugs do not depend on which identifiers a run draws, as long as they
    are fresh. *)
Section SlugsAcrossRuns.
Variable U : UnicodeDB.
Variables w1 w2 : World.
Variable N : nat.
Hypothesis fresh1 : fresh_ids w1 N.
Hypothesis fresh2 : fresh_ids w2 N.






End SlugsAcrossRuns.

Section Outputs.
Variable U : UnicodeDB.
Variable w : World.


(** The segment of a child: as long as the child's subtree has non-root
    nodes, and headed by the child's record unless it is a sentinel. *)
Lemma extend_loop_child_segments cs p σ :
  ∃ segs, (extend_loop U w cs p [] σ).1 = concat segs
    ∧ Forall2 (λ c seg,
         length seg = count_non_root c
         ∧ cat_name <$> seg = label <$> non_root_nodes c
         ∧ (node_id c ≠ Some root →
            ∃ r rest, seg = r :: rest ∧ cat_name r = label c ∧ cat_parent_id r = p))
       cs segs.
Proof.
  destruct (extend_loop_segments U w cs p σ) as (segs & Hout & Hsegs).
  exists segs. split; [done|].
  eapply Forall2_impl; [exact Hsegs|]. intros c seg [σc ->]. split_and!.
  - apply parse_categories_length.
  - apply parse_categories_names.
  - intros Hid. rewrite parse_categories_node by done. by eexists _, _.
Qed.

Lemma occurrences_app k out1 out2 :
  occurrences U k (out1 ++ out2) = (occurrences U k out1 + occurrences U k out2)%nat.
Proof. unfold occurrences. by rewrite filter_app, length_app. Qed.

Lemma occurrences_upto j r out :
  out !! j = Some r → (1 ≤ occurrences U (key_of U r) (take (S j) out))%nat.
Proof.
  intros Hj. rewrite (take_S_r _ _ _ Hj), occurrences_app, occurrences_cons.
  rewrite decide_True by done. lia.
Qed.

(** One identifier and one clock reading per record, in output order. *)
Lemma parse_categories_draws data p σ :
  let out := (parse_categories U w data p σ).1 in
  cat_id <$> out = uuid4 w <$> seq (uuid_calls σ) (length out)
  ∧ cat_updated_at <$> out = now_utc w <$> seq (clock_calls σ) (length out).
Proof.
  cbv zeta.
  cut (let out := (parse_categories U w data p σ).1 in
       let σ' := (parse_categories U w data p σ).2 in
       (uuid_calls σ' = uuid_calls σ + length out)%nat
       ∧ (clock_calls σ' = clock_calls σ + length out)%nat
       ∧ cat_id <$> out = uuid4 w <$> seq (uuid_calls σ) (length out)
       ∧ cat_updated_at <$> out = now_utc w <$> seq (clock_calls σ) (length out)).
  { cbv zeta. by intros (_ & _ & ? & ?). }
  cbv zeta.
  pose (R := λ (σ : Store) (out : list CategoryRecord) (σ' : Store),
    (uuid_calls σ' = uuid_calls σ + length out)%nat
    ∧ (clock_calls σ' = clock_calls σ + length out)%nat
    ∧ cat_id <$> out = uuid4 w <$> seq (uuid_calls σ) (length out)
    ∧ cat_updated_at <$> out = now_utc w <$> seq (clock_calls σ) (length out)).
  apply (parse_categories_run_ind U w (λ _ _ σ out σ', R σ out σ')
           (λ _ _ σ out σ', R σ out σ')); unfold R; clear.
  - intros _ σ. cbn. split_and!; [lia|lia|done|done].
  - intros _ _ _ σ out1 σ1 out2 σ2 (Hu1 & Hc1 & Hi1 & Ht1) (Hu2 & Hc2 & Hi2 & Ht2).
    rewrite length_app, !fmap_app, !seq_app, !fmap_app, Hi1, Hi2, Ht1, Ht2, Hu1, Hc1.
    split_and!; [lia|lia|done|done].
  - done.
  - intros d p σ out σ' _ (Hu & Hc & Hi & Ht). cbn in *.
    rewrite Hi, Ht. split_and!; [lia|lia|done|done].
Qed.

End Outputs.

(** * The specification's claims *)

(** C1 (what the code does on [colliding_tree]): the three children of the
    root are named "Shoes", "Shoes" and "Shoes 2".  The second gets the slug
    "shoes-2" from the tracker, the third gets "shoes-2" as its own base slug:
    two records with the same [parent_id] (none) carry the same slug. *)
Theorem sibling_slugs_collide U w :
  let out := parse_categories_call U w colliding_tree in
  cat_slug <$> out = [lit "shoes"; lit "shoes-2"; lit "shoes-2"]
  ∧ cat_parent_id <$> out = [None; None; None]
  ∧ ∃ r1 r2, out !! 1%nat = Some r1 ∧ out !! 2%nat = Some r2
      ∧ cat_parent_id r1 = cat_parent_id r2 ∧ cat_slug r1 = cat_slug r2.
Proof.
  cbv zeta. split_and!; [by vm_compute|by vm_compute|].
  eexists _, _. split_and!; [by vm_compute|by vm_compute|done|done].
Qed.

(** C2: the output is the pre-order traversal of the tree without the root
    sentinels.  The names of the records are the names of the non-root nodes
    in pre-order; a record whose [parent_id] is set comes after the record
    with that identifier; and the output of a call on any node is the node's
    own record (none for a sentinel) followed by the outputs for its children,
    one whole subtree after the other in input order. *)
Theorem parse_categories_preorder U w t :
  cat_name <$> parse_categories_call U w t = label <$> non_root_nodes t
  ∧ (∀ j r q, parse_categories_call U w t !! j = Some r → cat_parent_id r = Some q →
       ∃ i r', (i < j)%nat ∧ parse_categories_call U w t !! i = Some r' ∧ cat_id r' = q)
  ∧ (∀ data p σ, ∃ segs,
       (parse_categories U w data p σ).1
       = (if is_sentinel data then [] else [own_record U w data p σ]) ++ concat segs
       ∧ Forall2 (λ c seg, cat_name <$> seg = label <$> non_root_nodes c)
           (children data) segs).
Proof.
  split_and!.
  - apply parse_categories_names.
  - intros j r q Hj Hq.
    destruct (parse_categories_parents U w t None _ j r Hj)
      as [Hp|[Hp|(i & r' & Hi & Hr' & Hp)]]; [congruence|congruence|].
    exists i, r'. split_and!; [done|done|congruence].
  - intros data p σ.
    destruct (decide (node_id data = Some root)) as [Hid|Hid].
    + rewrite parse_categories_sentinel, is_sentinel_true by done.
      destruct (extend_loop_child_segments U w (children data) None σ)
        as (segs & -> & Hsegs).
      exists segs. split; [done|].
      eapply Forall2_impl; [exact Hsegs|]. by intros c seg (_ & ? & _).
    + rewrite parse_categories_node, is_sentinel_false by done. cbn [fst].
      destruct (extend_loop_child_segments U w (children data)
                  (Some (uuid4 w (uuid_calls σ))) (after_own U data p σ))
        as (segs & -> & Hsegs).
      exists segs. split; [done|].
      eapply Forall2_impl; [exact Hsegs|]. by intros c seg (_ & ? & _).
Qed.

Lemma parse_categories_preorder_witness :
  ∃ i r', (i < 3)%nat
    ∧ parse_categories_call ascii_only demo_world nested_root_tree !! i = Some r'
    ∧ cat_id r' = lit "uuid-0".
Proof.
  eapply (proj1 (proj2 (parse_categories_preorder ascii_only demo_world nested_root_tree))
            3%nat).
  - vm_compute. reflexivity.
  - reflexivity.
Defined.

(** C3: a root sentinel gets no record.  The records are those of the
    non-root nodes; and when the tree's top node is the sentinel, the output is
    made of the segments of its children alone, and the record of each direct
    child has no [parent_id]. *)
Theorem root_sentinel_skipped U w t :
  (cat_name <$> parse_categories_call U w t = label <$> non_root_nodes t
   ∧ Forall (λ n, node_id n ≠ Some root) (non_root_nodes t))
  ∧ (node_id t = Some root →
     ∃ segs, parse_categories_call U w t = concat segs
       ∧ Forall2 (λ c seg,
            length seg = count_non_root c
            ∧ (node_id c ≠ Some root →
               ∃ r rest, seg = r :: rest ∧ cat_name r = label c
                 ∧ cat_parent_id r = None))
          (children t) segs).
Proof.
  split_and!.
  - apply parse_categories_names.
  - unfold non_root_nodes. apply Forall_forall. intros n Hn.
    apply list_elem_of_In, List.filter_In in Hn as [_ Hn]. unfold is_sentinel in Hn.
    by apply negb_true_iff, bool_decide_eq_false in Hn.
  - intros Hid. unfold parse_categories_call.
    rewrite parse_categories_sentinel by done.
    destruct (extend_loop_child_segments U w (children t) None (fresh_store ∅))
      as (segs & -> & Hsegs).
    exists segs. split; [done|].
    eapply Forall2_impl; [exact Hsegs|]. by intros c seg (? & _ & ?).
Qed.

Lemma root_sentinel_skipped_witness :
  ∃ segs, parse_categories_call ascii_only demo_world colliding_tree = concat segs
    ∧ Forall2 (λ c seg,
         length seg = count_non_root c
         ∧ (node_id c ≠ Some root →
            ∃ r rest, seg = r :: rest ∧ cat_name r = label c ∧ cat_parent_id r = None))
       (children colliding_tree) segs.
Proof.
  apply (proj2 (root_sentinel_skipped ascii_only demo_world colliding_tree)).
  reflexivity.
Defined.

(** C4: the number of records is the number of non-root nodes of the tree. *)
Theorem parse_categories_count U w t :
  length (parse_categories_call U w t) = count_non_root t.
Proof. apply parse_categories_length. Qed.

(** C5: [generate_slug] lowercases the name, removes every character that is
    neither a word character, whitespace nor a hyphen, collapses each run of
    whitespace and hyphens to one hyphen and trims the hyphens at both ends.
    "Men's Shoes" gives "mens-shoes"; the empty name gives the empty slug,
    and so does a node without a name. *)
Theorem generate_slug_correct U :
  (∀ name, generate_slug U name = slug_spec U name)
  ∧ generate_slug U (lit "Men's Shoes") = lit "mens-shoes"
  ∧ generate_slug U (lit "") = lit ""
  ∧ (∀ w, (λ r, (cat_name r, cat_slug r))
            <$> parse_categories_call U w (Node (Some (lit "7")) None None)
          = [(lit "", lit "")]).
Proof.
  split_and!; [apply generate_slug_spec|by vm_compute|by vm_compute|].
  intros w. by vm_compute.
Qed.

(** C6: in the output of one traversal, take a record and count the records
    up to and including it that share its (parent identifier or sentinel, base
    slug) pair.  If it is the first, its slug is the base slug; if it is the
    [n]-th with [n >= 2], its slug is the base slug, a hyphen and [n].  Three
    siblings named "Men's Shoes" get "mens-shoes", "mens-shoes-2" and
    "mens-shoes-3". *)
Theorem nth_occurrence_slug U w :
  (∀ t j r, parse_categories_call U w t !! j = Some r →
     let n := occurrences U (key_of U r) (take (S j) (parse_categories_call U w t)) in
     (1 ≤ n)%nat
     ∧ (n = 1%nat → cat_slug r = generate_slug U (cat_name r))
     ∧ ((2 ≤ n)%nat →
        cat_slug r = generate_slug U (cat_name r) ++ lit "-" ++ lit (pretty n)))
  ∧ cat_slug <$> parse_categories_call U w mens_shoes_tree
    = [lit "mens-shoes"; lit "mens-shoes-2"; lit "mens-shoes-3"].
Proof.
  split; [|by vm_compute].
  intros t j r Hj n.
  pose proof (occurrences_upto U j r _ Hj) as Hn. fold n in Hn.
  destruct (Emits_count U ∅ _ _ (parse_categories_emits U w t None (fresh_store ∅)))
    as (_ & _ & Hslug); [intros k; cbn; by rewrite lookup_empty|].
  specialize (Hslug j r Hj).
  change (cat_slug r = nth_slug (generate_slug U (cat_name r)) n) in Hslug.
  unfold nth_slug in Hslug.
  split_and!; [done| |].
  - intros Hn1. by rewrite decide_True in Hslug.
  - intros Hn2. by rewrite decide_False in Hslug by lia.
Qed.

Lemma nth_occurrence_slug_witness :
  let r := {| cat_id := lit "uuid-1"; cat_parent_id := None;
              cat_name := lit "Men's Shoes"; cat_slug := lit "mens-shoes-2";
              cat_is_active := true; cat_updated_at := 1700000001 |} in
  parse_categories_call ascii_only demo_world mens_shoes_tree !! 1%nat = Some r
  ∧ cat_slug r = generate_slug ascii_only (cat_name r) ++ lit "-" ++ lit (pretty 2%nat).
Proof.
  intros r.
  assert (parse_categories_call ascii_only demo_world mens_shoes_tree !! 1%nat = Some r)
    as Hr by (vm_compute; reflexivity).
  split; [exact Hr|].
  apply (proj1 (nth_occurrence_slug ascii_only demo_world) mens_shoes_tree 1%nat r Hr).
  vm_compute. lia.
Defined.



Lemma demo_world_fresh : fresh_ids demo_world 4.
Proof.
  split.
  - intros i Hi. do 4 (destruct i as [|i]; [by vm_compute|]). lia.
  - intros i j Hi Hj.
    do 4 (destruct i as [|i]; [do 4 (destruct j as [|j]; [by vm_compute|]); lia|]).
    lia.
Qed.



(** C8: the persistence step is all or nothing.  Either [insert_categories]
    returns and every record of the batch is committed, or it raises and what
    is committed is what was committed before, the transaction rolled back.
    A statement that the server rejects, after any number of statements that
    went through, makes it raise. *)
Theorem insert_categories_all_or_nothing rejects commit_fails c categories :
  let run := insert_categories rejects commit_fails c categories in
  ((run.2 = Ok (length categories)
      ∧ committed run.1 = upsert_rows (in_txn c) categories
      ∧ in_txn run.1 = committed run.1)
   ∨ (run.2 = Raise DatabaseError
      ∧ committed run.1 = committed c ∧ in_txn run.1 = committed c))
  ∧ (∀ pre page post,
       paginate categories 1000 = pre ++ page :: post →
       (execute_pages rejects c pre).2 = Ok () →
       rejects (in_txn (execute_pages rejects c pre).1) page = true →
       run.2 = Raise DatabaseError
       ∧ committed run.1 = committed c ∧ in_txn run.1 = committed c).
Proof.
  cbv zeta.
  pose proof (insert_categories_cases rejects commit_fails c categories) as Hcases.
  destruct (insert_categories rejects commit_fails c categories) as [c' res] eqn:Hrun.
  cbn [fst snd]. split; [exact Hcases|].
  intros pre page post Hpages Hpre Hrej.
  cut (res = Raise DatabaseError).
  { intros ->. by destruct Hcases as [[[=] _]|?]. }
  pose proof (execute_pages_rejected rejects c pre page post Hpre Hrej) as Hex.
  rewrite <- Hpages in Hex.
  unfold insert_categories, execute_values in Hrun.
  destruct (execute_pages rejects c (paginate categories 1000)) as [c1 [u|e]];
    cbn [snd] in Hex; [done|].
  injection Hrun as _ <-. by destruct e.
Qed.

Lemma insert_categories_all_or_nothing_witness :
  let categories := [sample_record "a" "Shoes" "shoes"; sample_record "b" "!" ""] in
  let run := insert_categories rejects_empty_slug commit_succeeds new_connection categories in
  run.2 = Raise DatabaseError
  ∧ committed run.1 = committed new_connection
  ∧ in_txn run.1 = committed new_connection.
Proof.
  intros categories.
  apply (proj2 (insert_categories_all_or_nothing rejects_empty_slug commit_succeeds
                  new_connection categories) [] categories []);
    vm_compute; reflexivity.
Defined.

(** C9: upserting a batch twice leaves the rows that upserting it once leaves.
    A row whose identifier is already there is overwritten with the new
    values; upserting the batch over its own result changes nothing; and after
    a call of [insert_categories] that returned, a second call with the same
    records leaves the committed table as the first left it. *)
Theorem insert_categories_idempotent rejects commit_fails c categories :
  (∀ t r old, t !! cat_id r = Some old →
     upsert_row t r = <[cat_id r := excluded r]> t
     ∧ upsert_row t r !! cat_id r = Some (excluded r))
  ∧ (∀ t, upsert_rows (upsert_rows t categories) categories = upsert_rows t categories)
  ∧ (∀ c1 n, insert_categories rejects commit_fails c categories = (c1, Ok n) →
       ∀ rejects' commit_fails',
         committed (insert_categories rejects' commit_fails' c1 categories).1
         = committed c1).
Proof.
  split_and!.
  - intros t r old _. rewrite upsert_row_insert. split; [done|apply lookup_insert_eq].
  - intros t. apply upsert_rows_idemp.
  - intros c1 n Hrun rejects' commit_fails'.
    pose proof (insert_categories_cases rejects commit_fails c categories) as H1.
    rewrite Hrun in H1. destruct H1 as [(_ & Hc1 & Ht1)|([=] & _)].
    pose proof (insert_categories_cases rejects' commit_fails' c1 categories) as H2.
    destruct (insert_categories rejects' commit_fails' c1 categories) as [c2 res].
    cbn [fst]. destruct H2 as [(_ & Hc2 & _)|(_ & Hc2 & _)]; [|done].
    by rewrite Hc2, Ht1, Hc1, upsert_rows_idemp.
Qed.

Lemma insert_categories_idempotent_witness :
  let categories := [sample_record "a" "Shoes" "shoes"; sample_record "b" "Hats" "hats"] in
  let c1 := (insert_categories accepts_all commit_succeeds new_connection categories).1 in
  committed (insert_categories accepts_all commit_succeeds c1 categories).1 = committed c1.
Proof.
  intros categories c1.
  apply (proj2 (proj2 (insert_categories_idempotent accepts_all commit_succeeds
                         new_connection categories)) c1 2%nat).
  vm_compute. reflexivity.
Defined.

(** C10: a sentinel at any depth, whatever parent the call was given, gets no
    record, and its children are parsed with no parent: the record of each
    direct child that is not itself a sentinel has no [parent_id].  In
    [nested_root_tree] the node below the inner sentinel is emitted without a
    parent, while its siblings point to the enclosing node. *)
Theorem nested_sentinel_reroots U w :
  (∀ data p σ, node_id data = Some root →
     ∃ segs, (parse_categories U w data p σ).1 = concat segs
       ∧ Forall2 (λ c seg,
            length seg = count_non_root c
            ∧ (node_id c ≠ Some root →
               ∃ r rest, seg = r :: rest ∧ cat_name r = label c
                 ∧ cat_parent_id r = None))
          (children data) segs)
  ∧ (λ r, (cat_name r, cat_parent_id r)) <$> parse_categories_call U w nested_root_tree
    = [(lit "Clothing", None); (lit "Shirts", Some (uuid4 w 0%nat));
       (lit "Hats", None); (lit "Socks", Some (uuid4 w 0%nat))].
Proof.
  split.
  2:{ by lazy. }
  intros data p σ Hid. rewrite parse_categories_sentinel by done.
  destruct (extend_loop_child_segments U w (children data) None σ)
    as (segs & -> & Hsegs).
  exists segs. split; [done|].
  eapply Forall2_impl; [exact Hsegs|]. by intros c seg (? & _ & ?).
Qed.

Lemma nested_sentinel_reroots_witness :
  ∃ segs,
    (parse_categories ascii_only demo_world
       (branch "root" "Inner" [leaf "12" "Hats"]) (Some (lit "uuid-0"))
       (fresh_store ∅)).1 = concat segs
    ∧ Forall2 (λ c seg,
         length seg = count_non_root c
         ∧ (node_id c ≠ Some root →
            ∃ r rest, seg = r :: rest ∧ cat_name r = label c ∧ cat_parent_id r = None))
       [leaf "12" "Hats"] segs.
Proof.
  apply (proj1 (nested_sentinel_reroots ascii_only demo_world)
           (branch "root" "Inner" [leaf "12" "Hats"])).
  reflexivity.
Defined.

(** * Further properties of the code *)

(** ** The shape of a slug *)

Section SlugShape.
Variable U : UnicodeDB.

Lemma generate_slug_pipeline name :
  generate_slug U name
  = strip is_hyphen (collapse_runs U (remove_others U (lower U name))).
Proof.
  unfold generate_slug, re_sub_plus.
  by rewrite re_sub_set_remove_others, (proj1 (re_sub_plus_from_collapse U _)).
Qed.

Lemma is_hyphen_eq c : is_hyphen c = true ↔ c = hyphen.
Proof. unfold is_hyphen. apply N.eqb_eq. Qed.

Lemma is_hyphen_separator c : is_hyphen c = true → separator U c = true.
Proof. unfold separator. intros ->. apply orb_true_r. Qed.

Lemma lstrip_split set s :
  ∃ pre, s = pre ++ lstrip set s ∧ Forall (λ c, set c = true) pre.
Proof.
  induction s as [|c s (pre & Hs & Hpre)]; [by exists []|].
  cbn [lstrip]. destruct (set c) eqn:Hc.
  - exists (c :: pre). split; [by rewrite Hs at 1|by constructor].
  - by exists [].
Qed.

Lemma lstrip_head set s c t : lstrip set s = c :: t → set c = false.
Proof.
  induction s as [|c' s IH]; [done|]. cbn [lstrip].
  destruct (set c') eqn:Hc'; [done|]. by intros [= <- _].
Qed.

Lemma rstrip_split set s :
  ∃ post, s = rstrip set s ++ post ∧ Forall (λ c, set c = true) post.
Proof.
  unfold rstrip. destruct (lstrip_split set (reverse s)) as (pre & Hs & Hpre).
  exists (reverse pre). split.
  - by rewrite <- reverse_app, <- Hs, reverse_involutive.
  - by apply Forall_reverse.
Qed.

Lemma rstrip_last set s l c : rstrip set s = l ++ [c] → set c = false.
Proof.
  unfold rstrip. intros H. apply (f_equal reverse) in H.
  rewrite reverse_involutive, reverse_snoc in H. by eapply lstrip_head.
Qed.

Lemma strip_split set s :
  ∃ pre post, s = pre ++ strip set s ++ post.
Proof.
  unfold strip. destruct (lstrip_split set s) as (pre & Hs & _).
  destruct (rstrip_split set (lstrip set s)) as (post & Hs' & _).
  exists pre, post. by rewrite <- Hs'.
Qed.

(** A stripped string starts and ends outside the set. *)
Lemma strip_ends set s :
  (∀ c t, strip set s = c :: t → set c = false)
  ∧ (∀ l c, strip set s = l ++ [c] → set c = false).
Proof.
  split; [|apply rstrip_last].
  intros c t H. unfold strip in H.
  destruct (rstrip_split set (lstrip set s)) as (post & Hs & _).
  rewrite H in Hs. by eapply lstrip_head.
Qed.

Lemma collapse_runs_Forall (P : N → Prop) s :
  P hyphen → Forall P s →
  Forall (λ c, P c ∧ (c = hyphen ∨ separator U c = false)) (collapse_runs U s).
Proof.
  intros Hh. induction 1 as [|c s Hc Hs IH]; [constructor|].
  rewrite collapse_runs_cons. destruct (separator U c) eqn:Ec.
  - destruct s as [|c' s]; [by repeat constructor; auto|].
    destruct (separator U c'); [done|]. constructor; auto.
  - constructor; auto.
Qed.

Lemma collapse_runs_no_double s l1 l2 :
  collapse_runs U s ≠ l1 ++ hyphen :: hyphen :: l2.
Proof.
  revert l1. induction s as [|c s IH]; intros l1.
  - by destruct l1.
  - rewrite collapse_runs_cons. destruct (separator U c) eqn:Ec.
    + destruct s as [|c' s]; [by destruct l1 as [|? [|]]|].
      destruct (separator U c') eqn:Ec'; [apply IH|].
      destruct l1 as [|x l1]; cbn [app]; intros H.
      * injection H as H. rewrite ?collapse_runs_cons, Ec' in H. injection H as -> _.
        by rewrite is_hyphen_separator in Ec'.
      * injection H as _ H. by apply IH in H.
    + destruct l1 as [|x l1]; cbn [app]; intros H; injection H as H1 H.
      * subst c. by rewrite is_hyphen_separator in Ec.
      * by apply IH in H.
Qed.

(** What holds of the hyphen and of every character of the lowercased name
    holds of every character of the slug. *)
Lemma generate_slug_Forall (P : N → Prop) name :
  P hyphen → Forall P (lower U name) → Forall P (generate_slug U name).
Proof.
  intros Hh Hname. rewrite generate_slug_pipeline.
  destruct (strip_split is_hyphen (collapse_runs U (remove_others U (lower U name))))
    as (pre & post & Hs).
  assert (Forall P (collapse_runs U (remove_others U (lower U name)))) as HP.
  { eapply Forall_impl; [apply collapse_runs_Forall; [done|]|by intros ? [? _]].
    unfold remove_others. apply Forall_forall. intros c Hc.
    apply list_elem_of_In, List.filter_In in Hc as [Hc _].
    by apply (proj1 (Forall_forall _ _) Hname), list_elem_of_In. }
  rewrite Hs in HP. by apply Forall_app in HP as [_ [? _]%Forall_app].
Qed.

Lemma generate_slug_alphabet name :
  Forall (λ c, c = hyphen ∨ (is_word U c = true ∧ is_space U c = false))
    (generate_slug U name).
Proof.
  rewrite generate_slug_pipeline.
  destruct (strip_split is_hyphen (collapse_runs U (remove_others U (lower U name))))
    as (pre & post & Hs).
  assert (Forall (λ c, kept U c = true ∧ (c = hyphen ∨ separator U c = false))
            (collapse_runs U (remove_others U (lower U name)))) as HP.
  { apply collapse_runs_Forall.
    - unfold kept. by rewrite (proj2 (is_hyphen_eq hyphen)), orb_true_r.
    - unfold remove_others. apply Forall_forall. intros c Hc.
      by apply list_elem_of_In, List.filter_In in Hc as [_ Hc]. }
  rewrite Hs in HP. apply Forall_app in HP as [_ [HP _]%Forall_app].
  eapply Forall_impl; [exact HP|]. intros c [Hk [->|Hsep]]; [by left|right].
  unfold kept in Hk. unfold separator in Hsep.
  apply orb_false_iff in Hsep as [Hsp Hhy]. rewrite Hsp, Hhy in Hk.
  rewrite !orb_false_r in Hk. done.
Qed.

Lemma generate_slug_hyphens name :
  (∀ l, generate_slug U name ≠ hyphen :: l)
  ∧ (∀ l, generate_slug U name ≠ l ++ [hyphen])
  ∧ (∀ l1 l2, generate_slug U name ≠ l1 ++ hyphen :: hyphen :: l2).
Proof.
  rewrite generate_slug_pipeline.
  set (s := collapse_runs U (remove_others U (lower U name))).
  destruct (strip_ends is_hyphen s) as [Hhead Hlast].
  split_and!.
  - intros l H. apply Hhead in H. by rewrite (proj2 (is_hyphen_eq hyphen)) in H.
  - intros l H. apply Hlast in H. by rewrite (proj2 (is_hyphen_eq hyphen)) in H.
  - intros l1 l2 H. destruct (strip_split is_hyphen s) as (pre & post & Hs).
    rewrite H in Hs.
    apply (collapse_runs_no_double (remove_others U (lower U name))
             (pre ++ l1) (l2 ++ post)).
    fold s. rewrite Hs. by rewrite <- !app_assoc.
Qed.

Lemma ascii_lower_fixed c :
  is_ascii c = true →
  is_ascii (ascii_lower c) = true ∧ ascii_lower (ascii_lower c) = ascii_lower c.
Proof.
  unfold is_ascii, ascii_lower. intros Hc%N.ltb_lt.
  destruct ((65 <=? c) && (c <=? 90))%N eqn:Hup.
  - apply andb_true_iff in Hup as [H1%N.leb_le H2%N.leb_le].
    split; [apply N.ltb_lt; lia|].
    replace ((65 <=? c + 32) && (c + 32 <=? 90))%N with false; [done|].
    symmetry. apply andb_false_iff. right. apply N.leb_gt. lia.
  - rewrite Hup. split; [by apply N.ltb_lt|done].
Qed.

Lemma lower_ascii s : forallb is_ascii s = true → lower U s = ascii_lower <$> s.
Proof. unfold lower. by intros ->. Qed.

Lemma lower_fixed s :
  Forall (λ c, is_ascii c = true ∧ ascii_lower c = c) s → lower U s = s.
Proof.
  intros Hs. rewrite lower_ascii.
  - induction Hs as [|c s [_ Hc] _ IH]; [done|]. cbn. by rewrite Hc, IH.
  - apply forallb_forall. intros c Hc%list_elem_of_In.
    by apply (proj1 (Forall_forall _ _) Hs).
Qed.

Lemma remove_others_fixed s :
  Forall (λ c, kept U c = true) s → remove_others U s = s.
Proof.
  unfold remove_others. induction 1 as [|c s Hc _ IH]; [done|].
  cbn. by rewrite Hc, IH.
Qed.

Lemma collapse_runs_fixed s :
  Forall (λ c, separator U c = true → c = hyphen) s →
  (∀ l1 l2, s ≠ l1 ++ hyphen :: hyphen :: l2) →
  collapse_runs U s = s.
Proof.
  induction 1 as [|c s Hc Hs IH]; intros Hdouble; [done|].
  assert (collapse_runs U s = s) as Hrec.
  { apply IH. intros l1 l2 ->. by apply (Hdouble (c :: l1) l2). }
  rewrite collapse_runs_cons, Hrec. destruct (separator U c) eqn:Ec; [|done].
  rewrite (Hc eq_refl) in *. destruct s as [|c' s]; [done|].
  destruct (separator U c') eqn:Ec'; [|done].
  apply Forall_cons in Hs as [Hc' _]. rewrite (Hc' Ec') in Hdouble.
  by destruct (Hdouble [] s).
Qed.

Lemma lstrip_fixed s : (∀ l, s ≠ hyphen :: l) → lstrip is_hyphen s = s.
Proof.
  destruct s as [|c s]; [done|]. intros H. cbn.
  destruct (is_hyphen c) eqn:Hc; [|done].
  apply is_hyphen_eq in Hc as ->. by destruct (H s).
Qed.

Lemma rstrip_fixed s : (∀ l, s ≠ l ++ [hyphen]) → rstrip is_hyphen s = s.
Proof.
  intros H. unfold rstrip. rewrite lstrip_fixed; [apply reverse_involutive|].
  intros l Hl. apply (H (reverse l)).
  by rewrite <- (reverse_involutive s), Hl, reverse_cons.
Qed.

(** A string that already has the shape of a slug is its own slug. *)
Lemma generate_slug_fixed s :
  Forall (λ c, is_ascii c = true ∧ ascii_lower c = c) s →
  Forall (λ c, c = hyphen ∨ (is_word U c = true ∧ is_space U c = false)) s →
  (∀ l, s ≠ hyphen :: l) → (∀ l, s ≠ l ++ [hyphen]) →
  (∀ l1 l2, s ≠ l1 ++ hyphen :: hyphen :: l2) →
  generate_slug U s = s.
Proof.
  intros Hlow Halpha Hhead Hlast Hdouble.
  rewrite generate_slug_pipeline, lower_fixed by done.
  rewrite remove_others_fixed.
  2:{ eapply Forall_impl; [exact Halpha|]. intros c [->|[Hw _]]; unfold kept.
      - by rewrite (proj2 (is_hyphen_eq hyphen)), orb_true_r.
      - by rewrite Hw. }
  rewrite collapse_runs_fixed; [|
    eapply Forall_impl; [exact Halpha|]; intros c [->|[_ Hsp]]; [done|];
    unfold separator; rewrite Hsp; cbn; by intros ?%is_hyphen_eq | done].
  unfold strip. by rewrite lstrip_fixed, rstrip_fixed.
Qed.

End SlugShape.

(** X1: a base slug is made of hyphens and of word characters that are not
    whitespace, whatever the name. *)
Theorem generate_slug_word_chars U name :
  Forall (λ c, c = hyphen ∨ (is_word U c = true ∧ is_space U c = false))
    (generate_slug U name).
Proof. apply generate_slug_alphabet. Qed.

(** X2: a base slug does not start with a hyphen, does not end with one, and
    has no two hyphens in a row. *)
Theorem generate_slug_hyphen_placement U name :
  (∀ l, generate_slug U name ≠ hyphen :: l)
  ∧ (∀ l, generate_slug U name ≠ l ++ [hyphen])
  ∧ (∀ l1 l2, generate_slug U name ≠ l1 ++ hyphen :: hyphen :: l2).
Proof. apply generate_slug_hyphens. Qed.

(** X3: on an ASCII name [generate_slug] is idempotent: the slug of a slug is
    that slug. *)
Theorem generate_slug_idempotent U name :
  forallb is_ascii name = true →
  generate_slug U (generate_slug U name) = generate_slug U name.
Proof.
  intros Hascii. destruct (generate_slug_hyphens U name) as (Hhead & Hlast & Hdouble).
  apply generate_slug_fixed; [|apply generate_slug_alphabet|done..].
  apply generate_slug_Forall; [done|].
  rewrite lower_ascii by done. apply Forall_fmap, Forall_forall.
  intros c Hc%list_elem_of_In. apply ascii_lower_fixed.
  by apply (proj1 (forallb_forall _ _) Hascii).
Qed.

Lemma generate_slug_idempotent_witness :
  generate_slug ascii_only (generate_slug ascii_only (lit "  Men's -- Shoes! "))
  = generate_slug ascii_only (lit "  Men's -- Shoes! ").
Proof. apply generate_slug_idempotent. reflexivity. Defined.

(** ** Identifiers, timestamps and slugs of a traversal *)

Lemma lit_inj s1 s2 : lit s1 = lit s2 → s1 = s2.
Proof.
  unfold lit. intros H.
  assert (Inj (=) (=) N_of_ascii) as Hinj.
  { intros a b Hab. by rewrite <- (ascii_N_embedding a), Hab, ascii_N_embedding. }
  apply (inj (fmap N_of_ascii)) in H.
  by rewrite <- (string_of_list_ascii_of_string s1), H, string_of_list_ascii_of_string.
Qed.

Lemma suffixed_inj base n m : suffixed base n = suffixed base m → n = m.
Proof.
  unfold suffixed. intros H. apply app_inv_head, app_inv_head in H.
  by apply lit_inj, (inj pretty) in H.
Qed.

Lemma suffixed_ne_base base n : suffixed base n ≠ base.
Proof.
  unfold suffixed. intros H. apply (f_equal length) in H.
  rewrite !length_app in H. cbn in H. lia.
Qed.

Lemma nth_slug_inj base n m :
  (1 ≤ n)%nat → (1 ≤ m)%nat → nth_slug base n = nth_slug base m → n = m.
Proof.
  unfold nth_slug. intros Hn Hm.
  destruct (decide (n = 1%nat)) as [->|], (decide (m = 1%nat)) as [->|]; [done|..].
  - intros H. symmetry in H. by apply suffixed_ne_base in H.
  - intros H. by apply suffixed_ne_base in H.
  - apply suffixed_inj.
Qed.

Section TraversalFacts.
Variable U : UnicodeDB.
Variable w : World.

Lemma occurrences_take_le k (out : list CategoryRecord) i j :
  (i ≤ j)%nat → (occurrences U k (take i out) ≤ occurrences U k (take j out))%nat.
Proof.
  intros Hij. replace j with (i + (j - i))%nat by lia.
  rewrite <- take_take_drop, occurrences_app. lia.
Qed.

Lemma occurrences_absent k (out : list CategoryRecord) :
  k ∉ key_of U <$> out → occurrences U k out = 0%nat.
Proof.
  induction out as [|r out IH]; [done|]. rewrite fmap_cons, not_elem_of_cons.
  intros [Hr Hout]. rewrite occurrences_cons, decide_False by done. by rewrite IH.
Qed.

Lemma occurrences_NoDup k (out : list CategoryRecord) :
  NoDup (key_of U <$> out) → (occurrences U k out ≤ 1)%nat.
Proof.
  induction out as [|r out IH]; [cbn; lia|]. rewrite fmap_cons, NoDup_cons.
  intros [Hr Hout]. rewrite occurrences_cons.
  destruct (decide (key_of U r = k)) as [<-|]; [|by apply IH].
  rewrite occurrences_absent by done. lia.
Qed.

(** The slug at a position of the output of a whole run. *)
Lemma parse_categories_call_slug t j r :
  parse_categories_call U w t !! j = Some r →
  let n := occurrences U (key_of U r) (take (S j) (parse_categories_call U w t)) in
  (1 ≤ n)%nat ∧ cat_slug r = nth_slug (generate_slug U (cat_name r)) n.
Proof.
  intros Hj n. split; [by apply occurrences_upto|].
  destruct (Emits_count U ∅ _ _ (parse_categories_emits U w t None (fresh_store ∅)))
    as (_ & _ & Hslug); [intros k; cbn; by rewrite lookup_empty|].
  exact (Hslug j r Hj).
Qed.

Lemma same_key_slugs_differ_lt t i j ri rj :
  parse_categories_call U w t !! i = Some ri →
  parse_categories_call U w t !! j = Some rj →
  (i < j)%nat → key_of U ri = key_of U rj → cat_slug ri ≠ cat_slug rj.
Proof.
  intros Hi Hj Hlt Hkey.
  destruct (parse_categories_call_slug t i ri Hi) as [Hni Hsi].
  destruct (parse_categories_call_slug t j rj Hj) as [Hnj Hsj].
  rewrite Hsi, Hsj. clear Hsi Hsj.
  assert (generate_slug U (cat_name ri) = generate_slug U (cat_name rj)) as ->
    by (by injection Hkey).
  rewrite Hkey in *. intros Heq%nth_slug_inj; [|done..].
  rewrite (take_S_r _ _ _ Hj), occurrences_app, occurrences_cons in Heq.
  rewrite decide_True in Heq by done.
  pose proof (occurrences_take_le (key_of U rj) (parse_categories_call U w t) (S i) j).
  cbn in Heq. lia.
Qed.

Lemma pretty_N_char_digit x : (48 ≤ N_of_ascii (pretty_N_char x) ≤ 57)%N.
Proof. unfold pretty_N_char. repeat case_match; cbn; lia. Qed.

Lemma pretty_N_go_digits x s :
  Forall (λ c, (48 ≤ c ≤ 57)%N) (lit s) →
  Forall (λ c, (48 ≤ c ≤ 57)%N) (lit (pretty_N_go x s)).
Proof.
  revert s. induction (N.lt_wf_0 x) as [x _ IH]; intros s Hs.
  destruct (decide (x = 0%N)) as [->|]; [by rewrite pretty_N_go_0|].
  rewrite pretty_N_go_step by lia. apply IH; [apply N.div_lt; lia|].
  constructor; [apply pretty_N_char_digit|done].
Qed.

Lemma pretty_nat_digits (n : nat) : Forall (λ c, (48 ≤ c ≤ 57)%N) (lit (pretty n)).
Proof.
  unfold pretty, pretty_nat, pretty, pretty_N. case_decide.
  - repeat constructor; cbn; lia.
  - apply pretty_N_go_digits. constructor.
Qed.

Lemma digit_word_char c :
  (48 ≤ c ≤ 57)%N → is_word U c = true ∧ is_space U c = false.
Proof.
  intros [H1 H2]. unfold is_word, is_space, is_ascii, ascii_isalnum, ascii_isspace.
  replace (c <? 128)%N with true by (symmetry; apply N.ltb_lt; lia).
  replace (48 <=? c)%N with true by (symmetry; apply N.leb_le; lia).
  replace (c <=? 57)%N with true by (symmetry; apply N.leb_le; lia).
  replace (c <=? 13)%N with false by (symmetry; apply N.leb_gt; lia).
  replace (c <=? 31)%N with false by (symmetry; apply N.leb_gt; lia).
  replace (c =? 32)%N with false by (symmetry; apply N.eqb_neq; lia).
  by rewrite !andb_false_r.
Qed.

End TraversalFacts.

(** X4: a traversal draws one identifier and one clock reading per record, in
    output order: the record at position [j] carries the [j]-th identifier
    and the [j]-th clock reading of the run. *)
Theorem parse_categories_draws_in_order U w t :
  cat_id <$> parse_categories_call U w t = uuid4 w <$> seq 0 (count_non_root t)
  ∧ cat_updated_at <$> parse_categories_call U w t
    = now_utc w <$> seq 0 (count_non_root t).
Proof.
  unfold parse_categories_call.
  rewrite <- (parse_categories_length U w t None (fresh_store ∅)).
  apply parse_categories_draws.
Qed.

(** X5: when the identifiers drawn during the run are pairwise distinct, so
    are the [id]s of the records. *)
Theorem parse_categories_ids_distinct U w t :
  (∀ i j, (i < count_non_root t)%nat → (j < count_non_root t)%nat →
          uuid4 w i = uuid4 w j → i = j) →
  NoDup (cat_id <$> parse_categories_call U w t).
Proof.
  intros Hinj. unfold parse_categories_call.
  rewrite (proj1 (parse_categories_draws U w t None (fresh_store ∅))).
  rewrite parse_categories_length. cbn [fresh_store uuid_calls].
  apply NoDup_fmap_2_strong; [|apply NoDup_seq].
  intros i j Hi%elem_of_seq Hj%elem_of_seq. apply Hinj; lia.
Qed.

Lemma parse_categories_ids_distinct_witness :
  NoDup (cat_id <$> parse_categories_call ascii_only demo_world nested_root_tree).
Proof.
  apply parse_categories_ids_distinct.
  intros i j Hi Hj. exact (proj2 demo_world_fresh i j Hi Hj).
Defined.

(** X6: two records with the same parent (identifier or sentinel) and the
    same base slug never get the same slug. *)
Theorem same_key_slugs_differ U w t i j ri rj :
  parse_categories_call U w t !! i = Some ri →
  parse_categories_call U w t !! j = Some rj →
  i ≠ j → key_of U ri = key_of U rj → cat_slug ri ≠ cat_slug rj.
Proof.
  intros Hi Hj Hne Hkey.
  destruct (decide (i < j)%nat).
  - by eapply same_key_slugs_differ_lt.
  - intros Heq. eapply (same_key_slugs_differ_lt U w t j i rj ri); [done|done|lia|done|done].
Qed.

Lemma same_key_slugs_differ_witness :
  ∃ ri rj,
    parse_categories_call ascii_only demo_world mens_shoes_tree !! 0%nat = Some ri
    ∧ parse_categories_call ascii_only demo_world mens_shoes_tree !! 2%nat = Some rj
    ∧ cat_slug ri ≠ cat_slug rj.
Proof.
  eexists _, _. split_and!; [by vm_compute|by vm_compute|].
  apply (same_key_slugs_differ ascii_only demo_world mens_shoes_tree 0 2);
    [by vm_compute|by vm_compute|lia|by vm_compute].
Defined.

(** X7: when no two records share their (parent, base slug) pair, no suffix
    is added: every slug is the base slug of its name, and two records with
    the same [parent_id] have different slugs. *)
Theorem distinct_keys_plain_slugs U w t :
  NoDup (key_of U <$> parse_categories_call U w t) →
  (∀ j r, parse_categories_call U w t !! j = Some r →
          cat_slug r = generate_slug U (cat_name r))
  ∧ (∀ i j ri rj,
       parse_categories_call U w t !! i = Some ri →
       parse_categories_call U w t !! j = Some rj →
       i ≠ j → cat_parent_id ri = cat_parent_id rj → cat_slug ri ≠ cat_slug rj).
Proof.
  intros Hnd.
  assert (∀ j r, parse_categories_call U w t !! j = Some r →
                 cat_slug r = generate_slug U (cat_name r)) as Hplain.
  { intros j r Hj. destruct (parse_categories_call_slug U w t j r Hj) as [Hn ->].
    unfold nth_slug. rewrite decide_True; [done|].
    pose proof (occurrences_take_le U (key_of U r) (parse_categories_call U w t)
                  (S j) (length (parse_categories_call U w t))) as Hle.
    rewrite firstn_all in Hle.
    pose proof (occurrences_NoDup U (key_of U r) _ Hnd).
    pose proof (lookup_lt_Some _ _ _ Hj). lia. }
  split; [exact Hplain|].
  intros i j ri rj Hi Hj Hne Hparent Hslug.
  rewrite (Hplain i ri Hi), (Hplain j rj Hj) in Hslug.
  apply Hne. eapply NoDup_lookup; [exact Hnd| |].
  - rewrite list_lookup_fmap, Hi. reflexivity.
  - rewrite list_lookup_fmap, Hj. cbn. unfold key_of. by rewrite Hparent, Hslug.
Qed.

Lemma distinct_keys_plain_slugs_witness :
  ∃ r, parse_categories_call ascii_only demo_world nested_root_tree !! 2%nat = Some r
    ∧ cat_slug r = generate_slug ascii_only (cat_name r).
Proof.
  eexists. split; [by vm_compute|].
  eapply (proj1 (distinct_keys_plain_slugs ascii_only demo_world nested_root_tree _)
            2%nat).
  by vm_compute.
  Unshelve. apply (bool_decide_unpack _). by vm_compute.
Defined.

(** X8: when the traversal is over, [slug_tracker] holds for each (parent,
    base slug) pair the number of records emitted with it, and holds nothing
    for a pair that no record has. *)
Theorem slug_tracker_counts U w t k :
  slug_tracker (parse_categories U w t None (fresh_store ∅)).2 !! k
  = match occurrences U k (parse_categories_call U w t) with
    | O => None
    | S n => Some (S n)
    end.
Proof.
  destruct (Emits_count U ∅ _ _ (parse_categories_emits U w t None (fresh_store ∅)))
    as (Hok & Hcnt & _); [intros k'; cbn; by rewrite lookup_empty|].
  specialize (Hcnt k). specialize (Hok k).
  change (tracked ∅ k + ?n)%nat with n in Hcnt.
  fold (parse_categories_call U w t) in Hcnt. rewrite <- Hcnt. unfold tracked.
  destruct (slug_tracker _ !! k) as [[|n]|]; done.
Qed.

(** X9: the children of an ordinary node point to it: in the output of a call
    on a node that is not a sentinel, the record that heads the segment of each
    child that is not a sentinel has the node's identifier as [parent_id]. *)
Theorem children_point_to_parent U w data p σ :
  node_id data ≠ Some root →
  ∃ own segs,
    (parse_categories U w data p σ).1 = own :: concat segs
    ∧ cat_name own = label data ∧ cat_parent_id own = p
    ∧ Forall2 (λ c seg,
         length seg = count_non_root c
         ∧ (node_id c ≠ Some root →
            ∃ r rest, seg = r :: rest ∧ cat_name r = label c
              ∧ cat_parent_id r = Some (cat_id own)))
       (children data) segs.
Proof.
  intros Hid. rewrite parse_categories_node by done. cbn [fst].
  destruct (extend_loop_child_segments U w (children data)
              (Some (uuid4 w (uuid_calls σ))) (after_own U data p σ))
    as (segs & -> & Hsegs).
  exists (own_record U w data p σ), segs. split_and!; [done..|].
  eapply Forall2_impl; [exact Hsegs|]. by intros c seg (? & _ & ?).
Qed.

Lemma children_point_to_parent_witness :
  ∃ own segs,
    (parse_categories ascii_only demo_world
       (branch "10" "Clothing" [leaf "11" "Shirts"; leaf "13" "Socks"]) None
       (fresh_store ∅)).1 = own :: concat segs
    ∧ cat_name own = lit "Clothing" ∧ cat_parent_id own = None
    ∧ Forall2 (λ c seg,
         length seg = count_non_root c
         ∧ (node_id c ≠ Some root →
            ∃ r rest, seg = r :: rest ∧ cat_name r = label c
              ∧ cat_parent_id r = Some (cat_id own)))
       [leaf "11" "Shirts"; leaf "13" "Socks"] segs.
Proof.
  apply (children_point_to_parent ascii_only demo_world
           (branch "10" "Clothing" [leaf "11" "Shirts"; leaf "13" "Socks"])).
  by vm_compute.
Defined.

(** X10: every slug the traversal emits, suffixed or not, is made of hyphens
    and of word characters that are not whitespace. *)
Theorem emitted_slugs_word_chars U w t :
  Forall (λ r, Forall (λ c, c = hyphen ∨ (is_word U c = true ∧ is_space U c = false))
                 (cat_slug r))
    (parse_categories_call U w t).
Proof.
  apply Forall_lookup. intros j r Hj.
  destruct (parse_categories_call_slug U w t j r Hj) as [_ ->].
  unfold nth_slug. case_decide; [apply generate_slug_alphabet|].
  unfold suffixed. rewrite !Forall_app. split_and!.
  - apply generate_slug_alphabet.
  - repeat constructor.
  - eapply Forall_impl; [apply pretty_nat_digits|].
    intros c Hc. right. by apply digit_word_char.
Qed.

(** ** What a successful [insert_categories] leaves in the table *)

Lemma upsert_rows_lookup_notin t rs k :
  k ∉ cat_id <$> rs → upsert_rows t rs !! k = t !! k.
Proof.
  unfold upsert_rows. revert t. induction rs as [|r rs IH]; intros t; [done|].
  rewrite fmap_cons, not_elem_of_cons. intros [Hk Hrs]. cbn [foldl].
  rewrite IH by done. rewrite upsert_row_insert. by apply lookup_insert_ne.
Qed.


Lemma upsert_rows_dom t rs :
  dom (upsert_rows t rs) = list_to_set (cat_id <$> rs) ∪ dom t.
Proof.
  unfold upsert_rows. revert t. induction rs as [|r rs IH]; intros t.
  - cbn. by rewrite (left_id_L ∅ (∪)).
  - cbn [foldl]. rewrite IH, upsert_row_insert, dom_insert_L. cbn.
    rewrite (assoc_L (∪)). f_equal. apply (comm_L (∪)).
Qed.

Lemma insert_categories_ok rejects commit_fails c categories n :
  (insert_categories rejects commit_fails c categories).2 = Ok n →
  n = length categories
  ∧ committed (insert_categories rejects commit_fails c categories).1
    = upsert_rows (in_txn c) categories.
Proof.
  pose proof (insert_categories_cases rejects commit_fails c categories) as H.
  destruct (insert_categories rejects commit_fails c categories) as [c' res].
  cbn [fst snd]. intros ->. destruct H as [([= ->] & ? & _)|([=] & _)]. done.
Qed.



(** X12: a call of [insert_categories] that returned has left every row whose
    identifier is not in the batch as the transaction saw it before the call;
    rows pending in the transaction are committed along with the batch. *)
Theorem insert_keeps_other_rows rejects commit_fails c categories n k :
  (insert_categories rejects commit_fails c categories).2 = Ok n →
  k ∉ cat_id <$> categories →
  committed (insert_categories rejects commit_fails c categories).1 !! k
  = in_txn c !! k.
Proof.
  intros [_ ->]%insert_categories_ok Hk. by apply upsert_rows_lookup_notin.
Qed.

Lemma insert_keeps_other_rows_witness :
  let categories := [sample_record "a" "Shoes" "shoes"; sample_record "b" "Hats" "hats"] in
  let c := {| committed := ∅;
              in_txn := {[ lit "z" := excluded (sample_record "z" "Old" "old") ]} |} in
  committed (insert_categories accepts_all commit_succeeds c categories).1 !! lit "z"
  = Some (excluded (sample_record "z" "Old" "old")).
Proof.
  intros categories c.
  rewrite (insert_keeps_other_rows accepts_all commit_succeeds c categories 2%nat).
  - by vm_compute.
  - by vm_compute.
  - apply (bool_decide_unpack _). by vm_compute.
Defined.

(** X13: flatten, then insert.  After [insert_categories] returned on the
    output of [parse_categories], every [parent_id] of a record of the batch is
    the identifier of a record of the batch, and of a row of the table. *)
Theorem parents_are_stored U w t rejects commit_fails c n r q :
  (insert_categories rejects commit_fails c (parse_categories_call U w t)).2 = Ok n →
  r ∈ parse_categories_call U w t →
  cat_parent_id r = Some q →
  (∃ r', r' ∈ parse_categories_call U w t ∧ cat_id r' = q)
  ∧ is_Some (committed
               (insert_categories rejects commit_fails c (parse_categories_call U w t)).1
             !! q).
Proof.
  intros [_ Hcom]%insert_categories_ok [j Hj]%list_elem_of_lookup Hq.
  assert (∃ r', r' ∈ parse_categories_call U w t ∧ cat_id r' = q) as (r' & Hr' & <-).
  { destruct (parse_categories_parents U w t None _ j r Hj)
      as [Hp|[Hp|(i & r' & _ & Hi & Hp)]]; [congruence|congruence|].
    exists r'. split; [by eapply list_elem_of_lookup_2|congruence]. }
  split; [by exists r'|].
  apply elem_of_dom. rewrite Hcom, upsert_rows_dom.
  apply elem_of_union_l, elem_of_list_to_set, list_elem_of_fmap. by exists r'.
Qed.

Lemma parents_are_stored_witness :
  let out := parse_categories_call ascii_only demo_world nested_root_tree in
  (∃ r', r' ∈ out ∧ cat_id r' = lit "uuid-0")
  ∧ is_Some (committed (insert_categories accepts_all commit_succeeds new_connection out).1
             !! lit "uuid-0").
Proof.
  intros out.
  assert (∃ r, out !! 1%nat = Some r ∧ cat_parent_id r = Some (lit "uuid-0"))
    as (r & Hr & Hp) by (eexists; split; by vm_compute).
  apply (parents_are_stored ascii_only demo_world nested_root_tree accepts_all
           commit_succeeds new_connection 4%nat r (lit "uuid-0")).
  - by vm_compute.
  - by eapply list_elem_of_lookup_2.
  - exact Hp.
Defined.

(** X14: flatten, then insert, counted.  When the identifiers drawn are
    pairwise distinct and none of them is in the table yet, a call that
    returned has added exactly one row per non-root node of the tree, and has
    returned that number. *)
Theorem one_row_per_node U w t rejects commit_fails c n :
  (insert_categories rejects commit_fails c (parse_categories_call U w t)).2 = Ok n →
  (∀ i j, (i < count_non_root t)%nat → (j < count_non_root t)%nat →
          uuid4 w i = uuid4 w j → i = j) →
  (∀ i, (i < count_non_root t)%nat → in_txn c !! uuid4 w i = None) →
  n = count_non_root t
  ∧ size (committed
            (insert_categories rejects commit_fails c (parse_categories_call U w t)).1)
    = (size (in_txn c) + count_non_root t)%nat.
Proof.
  intros [-> Hcom]%insert_categories_ok Hinj Hnew.
  split; [apply parse_categories_length|].
  rewrite <- (size_dom (committed _)), <- (size_dom (in_txn c)), Hcom, upsert_rows_dom.
  assert (cat_id <$> parse_categories_call U w t = uuid4 w <$> seq 0 (count_non_root t))
    as Hids.
  { unfold parse_categories_call.
    rewrite <- (parse_categories_length U w t None (fresh_store ∅)).
    apply parse_categories_draws. }
  rewrite size_union.
  - rewrite size_list_to_set, Hids, length_fmap, length_seq; [lia|].
    rewrite Hids. apply NoDup_fmap_2_strong; [|apply NoDup_seq].
    intros i j Hi%elem_of_seq Hj%elem_of_seq. apply Hinj; lia.
  - intros k Hk%elem_of_list_to_set Hdom%elem_of_dom. rewrite Hids in Hk.
    apply list_elem_of_fmap in Hk as (i & -> & Hi%elem_of_seq).
    rewrite Hnew in Hdom by lia. by destruct Hdom.
Qed.

Lemma one_row_per_node_witness :
  let run := insert_categories accepts_all commit_succeeds new_connection
               (parse_categories_call ascii_only demo_world nested_root_tree) in
  4%nat = count_non_root nested_root_tree
  ∧ size (committed run.1) = (size (in_txn new_connection) + count_non_root nested_root_tree)%nat.
Proof.
  intros run.
  apply (one_row_per_node ascii_only demo_world nested_root_tree accepts_all
           commit_succeeds new_connection 4%nat).
  - by vm_compute.
  - intros i j Hi Hj. exact (proj2 demo_world_fresh i j Hi Hj).
  - intros i _. apply lookup_empty.
Defined.

(** ** The database helpers *)

Lemma head_filter_None {A} (f : A → bool) (l : list A) :
  head (List.filter f l) = None ↔ Forall (λ x, f x = false) l.
Proof.
  induction l as [|x l IH]; cbn; [by split; [constructor|]|].
  destruct (f x) eqn:Hx; cbn.
  - split; [done|]. intros H. apply Forall_cons in H as [H _]. congruence.
  - rewrite IH. split; [by constructor|]. by intros [_ ?]%Forall_cons.
Qed.

Lemma head_filter_Some {A} (f : A → bool) (l : list A) x :
  head (List.filter f l) = Some x → x ∈ l ∧ f x = true.
Proof.
  induction l as [|y l IH]; cbn; [done|].
  destruct (f y) eqn:Hy; cbn.
  - intros [= <-]. split; [apply list_elem_of_here|done].
  - intros [? ?]%IH. split; [by apply list_elem_of_further|done].
Qed.

Lemma head_filter_snoc_new {A} (f : A → bool) (l : list A) x :
  head (List.filter f l) = None → f x = true →
  head (List.filter f (l ++ [x])) = Some x.
Proof.
  intros Hl Hx. rewrite List.filter_app. cbn. rewrite Hx.
  destruct (List.filter f l); [done|discriminate].
Qed.

Lemma head_filter_app_Some {A} (f : A → bool) (l k : list A) x :
  head (List.filter f l) = Some x → head (List.filter f (l ++ k)) = Some x.
Proof.
  rewrite List.filter_app. by destruct (List.filter f l).
Qed.

Section LinkFacts.
Variable rejects : Database → Statement → bool.

Lemma link_category_to_option_ok c o s b s' :
  link_category_to_option rejects c o s = (Ok b, s') →
  (b = true ↔ (c, o) ∉ ecom_category_option_suggestions (db s))
  ∧ db s' = (if b then run_statement (InsertLink c o) (db s) else db s)
  ∧ uuids_drawn s' = uuids_drawn s ∧ clock_reads s' = clock_reads s.
Proof.
  unfold link_category_to_option, db_bind, db_ret, cur_execute, fetchone.
  destruct (rejects (db s) (SelectLink c o)); [done|]. cbn.
  destruct (head _) as [row|] eqn:Hrow; cbn.
  - intros [= <- <-]. split_and!; [|done..].
    apply head_filter_Some in Hrow as [Hin Hrow]. unfold is_link in Hrow.
    apply bool_decide_eq_true in Hrow as ->. split; [done|]. by intros [].
  - destruct (rejects _ (InsertLink c o)); [done|]. intros [= <- <-].
    split_and!; [|done..]. split; [intros _|done].
    apply head_filter_None in Hrow. intros Hin.
    apply (proj1 (Forall_forall _ _) Hrow) in Hin. unfold is_link in Hin.
    by apply bool_decide_eq_false in Hin.
Qed.

End LinkFacts.

(** X15: [link_category_to_option] returns [True] exactly when the pair was
    not linked yet.  When it returns, the pair is linked, the other tables are
    untouched, and a link table without duplicates is still without
    duplicates. *)
Theorem link_category_to_option_links rejects c o s b s' :
  link_category_to_option rejects c o s = (Ok b, s') →
  (b = true ↔ (c, o) ∉ ecom_category_option_suggestions (db s))
  ∧ (c, o) ∈ ecom_category_option_suggestions (db s')
  ∧ ecom_options (db s') = ecom_options (db s)
  ∧ ecom_option_values (db s') = ecom_option_values (db s)
  ∧ (NoDup (ecom_category_option_suggestions (db s)) →
     NoDup (ecom_category_option_suggestions (db s'))).
Proof.
  intros (Hb & -> & _)%link_category_to_option_ok.
  destruct b; cbn.
  - pose proof (proj1 Hb eq_refl) as Hnew.
    split_and!; [done| |done|done|].
    + apply elem_of_app. right. apply list_elem_of_here.
    + intros Hnd. apply NoDup_app. split_and!; [done| |apply NoDup_singleton].
      intros x Hx ->%list_elem_of_singleton. done.
  - split_and!; [done| |done..].
    destruct (decide ((c, o) ∈ ecom_category_option_suggestions (db s))); [done|].
    by apply Hb in n.
Qed.

Lemma link_category_to_option_links_witness :
  let run := link_category_to_option never_rejects (lit "c1") (lit "o1")
               (new_session empty_database) in
  (true = true ↔ (lit "c1", lit "o1") ∉ ecom_category_option_suggestions empty_database)
  ∧ (lit "c1", lit "o1") ∈ ecom_category_option_suggestions (db run.2)
  ∧ ecom_options (db run.2) = []
  ∧ ecom_option_values (db run.2) = []
  ∧ (NoDup (ecom_category_option_suggestions empty_database) →
     NoDup (ecom_category_option_suggestions (db run.2))).
Proof.
  intros run.
  apply (link_category_to_option_links never_rejects (lit "c1") (lit "o1")
           (new_session empty_database) true run.2).
  reflexivity.
Defined.

(** X16: linking is idempotent: after a call that returned, a second call
    for the same pair returns [False] and leaves the session as it was. *)
Theorem link_category_to_option_again rejects rejects' c o s b s' b2 s2 :
  link_category_to_option rejects c o s = (Ok b, s') →
  link_category_to_option rejects' c o s' = (Ok b2, s2) →
  b2 = false ∧ s2 = s'.
Proof.
  intros H1 H2.
  destruct (link_category_to_option_links rejects c o s b s' H1) as (_ & Hin & _).
  apply link_category_to_option_ok in H2 as (Hb2 & Hdb & Hu & Hc).
  destruct b2; [by apply Hb2 in Hin|]. split; [done|].
  destruct s2, s'; cbn in *. congruence.
Qed.

Lemma link_category_to_option_again_witness :
  let s1 := (link_category_to_option never_rejects (lit "c1") (lit "o1")
               (new_session empty_database)).2 in
  false = false
  ∧ (link_category_to_option never_rejects (lit "c1") (lit "o1") s1).2 = s1.
Proof.
  intros s1.
  apply (link_category_to_option_again never_rejects never_rejects (lit "c1") (lit "o1")
           (new_session empty_database) true s1 false); reflexivity.
Defined.

Section OptionFacts.
Variable w : World.
Variable rejects : Database → Statement → bool.

(** The row [get_or_create_option] inserts at session [s]. *)
Lemma get_or_create_option_ok code name s id s' :
  get_or_create_option w rejects code name s = (Ok id, s') →
  match head (List.filter (has_code code) (ecom_options (db s))) with
  | Some row => id = opt_id row ∧ s' = s
  | None =>
      id = uuid4 w (uuids_drawn s)
      ∧ db s' = run_statement
                  (InsertOption
                     {| opt_id := id; opt_code := code; opt_name := name;
                        opt_description := name ++ lit " option";
                        opt_is_active := true;
                        opt_created_at := now_utc w (clock_reads s);
                        opt_updated_at := now_utc w (S (clock_reads s)) |})
                  (db s)
      ∧ uuids_drawn s' = S (uuids_drawn s)
      ∧ clock_reads s' = S (S (clock_reads s))
  end.
Proof.
  unfold get_or_create_option, db_bind, db_ret, cur_execute, fetchone, draw_uuid, utcnow.
  destruct (rejects (db s) (SelectOptionByCode code)); [done|]. cbn.
  destruct (head _) as [row|]; cbn.
  - intros [= <- <-]. by destruct s.
  - destruct (rejects _ (InsertOption _)); [done|]. by intros [= <- <-].
Qed.

End OptionFacts.

(** X17: when [get_or_create_option] returns, it returns the identifier of a
    row that carries the code.  The rows that were there are untouched; at most
    one row is added, and none (nor anything drawn) when a row already carried
    the code; codes that were pairwise distinct stay so. *)
Theorem get_or_create_option_finds w rejects code name s id s' :
  get_or_create_option w rejects code name s = (Ok id, s') →
  (∃ row, row ∈ ecom_options (db s') ∧ opt_code row = code ∧ opt_id row = id)
  ∧ (∃ new, ecom_options (db s') = ecom_options (db s) ++ new ∧ (length new ≤ 1)%nat)
  ∧ ((∃ row, row ∈ ecom_options (db s) ∧ opt_code row = code) → s' = s)
  ∧ (NoDup (opt_code <$> ecom_options (db s)) →
     NoDup (opt_code <$> ecom_options (db s'))).
Proof.
  intros H%get_or_create_option_ok.
  destruct (head _) as [row|] eqn:Hrow.
  - destruct H as [-> ->]. apply head_filter_Some in Hrow as [Hin Hcode].
    apply bool_decide_eq_true in Hcode.
    split_and!; [by exists row| |done|done].
    exists []. split; [by rewrite app_nil_r|cbn; lia].
  - destruct H as (-> & -> & _). cbn.
    apply head_filter_None in Hrow.
    assert (∀ row, row ∈ ecom_options (db s) → opt_code row ≠ code) as Hnone.
    { intros row Hin. apply (proj1 (Forall_forall _ _) Hrow) in Hin.
      by apply bool_decide_eq_false in Hin. }
    split_and!.
    + eexists. split; [apply elem_of_app; right; apply list_elem_of_here|done].
    + eexists [_]. split; [done|cbn; lia].
    + intros (row & Hin & Hcode). by destruct (Hnone row Hin).
    + intros Hnd. rewrite fmap_app. apply NoDup_app.
      split_and!; [done| |apply NoDup_singleton].
      intros c (row & -> & Hin)%list_elem_of_fmap ?%list_elem_of_singleton.
      by destruct (Hnone row Hin).
Qed.

Lemma get_or_create_option_finds_witness :
  let run := get_or_create_option demo_world never_rejects (lit "size") (lit "Size")
               (new_session empty_database) in
  (∃ row, row ∈ ecom_options (db run.2) ∧ opt_code row = lit "size"
     ∧ opt_id row = lit "uuid-0")
  ∧ (∃ new, ecom_options (db run.2) = [] ++ new ∧ (length new ≤ 1)%nat)
  ∧ ((∃ row, row ∈ ecom_options empty_database ∧ opt_code row = lit "size") →
     run.2 = new_session empty_database)
  ∧ (NoDup (opt_code <$> ecom_options empty_database) →
     NoDup (opt_code <$> ecom_options (db run.2))).
Proof.
  intros run.
  apply (get_or_create_option_finds demo_world never_rejects (lit "size") (lit "Size")
           (new_session empty_database) (lit "uuid-0") run.2).
  by vm_compute.
Defined.

(** X18: get-or-create is idempotent: on a table whose codes are pairwise
    distinct, after a call that returned, a second call with the same code
    returns the same identifier, adds no row and draws nothing, whatever name
    it is given. *)
Theorem get_or_create_option_again w rejects rejects' code name name' s id s' id2 s2 :
  NoDup (opt_code <$> ecom_options (db s)) →
  get_or_create_option w rejects code name s = (Ok id, s') →
  get_or_create_option w rejects' code name' s' = (Ok id2, s2) →
  id2 = id ∧ s2 = s'.
Proof.
  intros _ H1%get_or_create_option_ok H2%get_or_create_option_ok.
  destruct (head (List.filter _ (ecom_options (db s)))) as [row|] eqn:Hrow.
  - destruct H1 as [-> ->]. rewrite Hrow in H2. by destruct H2 as [-> ->].
  - destruct H1 as (-> & Hdb & _). rewrite Hdb in H2. cbn in H2.
    erewrite head_filter_snoc_new in H2; [|done|by apply bool_decide_eq_true].
    by destruct H2 as [-> ->].
Qed.

Lemma get_or_create_option_again_witness :
  let s1 := (get_or_create_option demo_world never_rejects (lit "size") (lit "Size")
               (new_session empty_database)).2 in
  lit "uuid-0" = lit "uuid-0"
  ∧ (get_or_create_option demo_world never_rejects (lit "size") (lit "Other") s1).2 = s1.
Proof.
  intros s1.
  apply (get_or_create_option_again demo_world never_rejects never_rejects
           (lit "size") (lit "Size") (lit "Other") (new_session empty_database)
           (lit "uuid-0") s1 (lit "uuid-0")); [apply NoDup_nil_2|by vm_compute..].
Defined.

Section OptionValueFacts.
Variable w : World.
Variable rejects : Database → Statement → bool.

(** One step of the loop of [insert_option_values]. *)
Lemma insert_option_values_from_cons position option_id value values s s' :
  insert_option_values_from w rejects position option_id (value :: values) s
  = (Ok (), s') →
  match head (List.filter (is_value option_id value) (ecom_option_values (db s))) with
  | Some _ =>
      insert_option_values_from w rejects (S position) option_id values s = (Ok (), s')
  | None =>
      insert_option_values_from w rejects (S position) option_id values
        {| db := run_statement
                   (InsertOptionValue
                      {| val_id := uuid4 w (uuids_drawn s); val_option_id := option_id;
                         val_value := value; val_position := position |}) (db s);
           uuids_drawn := S (uuids_drawn s);
           clock_reads := clock_reads s |}
      = (Ok (), s')
  end.
Proof.
  cbn [insert_option_values_from].
  unfold db_bind at 1. unfold cur_execute at 1.
  destruct (rejects (db s) (SelectOptionValue option_id value)); [done|].
  cbn [run_statement]. unfold db_bind at 1, fetchone at 1. cbn [db].
  destruct (head _) as [row|]; cbn [fmap option_fmap option_map].
  - by destruct s.
  - unfold db_bind at 1, draw_uuid at 1. unfold db_bind at 1, cur_execute at 1.
    cbn [db uuids_drawn clock_reads].
    by destruct (rejects _ (InsertOptionValue _)).
Qed.

(** What the loop has done when it returns. *)
Lemma insert_option_values_from_ok position option_id values s s' :
  insert_option_values_from w rejects position option_id values s = (Ok (), s') →
  ∃ new,
    ecom_option_values (db s') = ecom_option_values (db s) ++ new
    ∧ ecom_options (db s') = ecom_options (db s)
    ∧ ecom_category_option_suggestions (db s')
      = ecom_category_option_suggestions (db s)
    ∧ Forall (λ r,
         val_option_id r = option_id
         ∧ (position ≤ val_position r)%nat
         ∧ values !! (val_position r - position)%nat = Some (val_value r)
         ∧ Forall (λ old, ¬ (val_option_id old = option_id
                             ∧ val_value old = val_value r))
             (ecom_option_values (db s))) new
    ∧ NoDup (val_value <$> new)
    ∧ (∀ v, v ∈ values →
         ∃ r, r ∈ ecom_option_values (db s')
              ∧ val_option_id r = option_id ∧ val_value r = v).
Proof.
  revert position s. induction values as [|value values IH]; intros position s.
  - intros [= <-]. exists []. rewrite app_nil_r.
    split_and!; [done|done|done|constructor|constructor|by intros v ?%elem_of_nil].
  - intros H%insert_option_values_from_cons.
    destruct (head _) as [row|] eqn:Hrow.
    + apply IH in H as (new & Htab & Hopt & Hlinks & Hnew & Hnd & Hall).
      exists new. split_and!; [done|done|done| |done|].
      * eapply Forall_impl; [exact Hnew|]. intros r (? & Hpos & Hval & ?).
        split_and!; [done|lia| |done].
        by replace (val_position r - position)%nat
          with (S (val_position r - S position)) by lia.
      * intros v [->|Hv]%elem_of_cons; [|by apply Hall].
        apply head_filter_Some in Hrow as [Hin Hrow].
        apply bool_decide_eq_true in Hrow as [? ?].
        exists row. split_and!; [|done|done]. rewrite Htab. apply elem_of_app. by left.
    + apply IH in H as (new & Htab & Hopt & Hlinks & Hnew & Hnd & Hall).
      cbn in Htab, Hopt, Hlinks, Hnew.
      set (r0 := {| val_id := uuid4 w (uuids_drawn s); val_option_id := option_id;
                    val_value := value; val_position := position |}) in *.
      apply head_filter_None in Hrow.
      exists (r0 :: new). split_and!; [by rewrite Htab, <- app_assoc|done|done| | |].
      * constructor.
        -- split_and!; [done|cbn; lia|cbn; by rewrite Nat.sub_diag|].
           eapply Forall_impl; [exact Hrow|]. intros old Hold [? ?].
           apply bool_decide_eq_false in Hold. by apply Hold.
        -- eapply Forall_impl; [exact Hnew|]. intros r (? & Hpos & Hval & Hold).
           split_and!; [done|lia| |by apply Forall_app in Hold as [? _]].
           by replace (val_position r - position)%nat
             with (S (val_position r - S position)) by lia.
      * cbn. apply NoDup_cons. split; [|done].
        intros (r & Hr & Hin)%list_elem_of_fmap.
        apply (proj1 (Forall_forall _ _) Hnew) in Hin as (Hoid & _ & _ & Hold).
        apply Forall_app in Hold as [_ [Hr0 _]%Forall_cons]. by apply Hr0.
      * intros v [->|Hv]%elem_of_cons; [|by apply Hall].
        exists r0. split_and!; [|done|done]. rewrite Htab.
        apply elem_of_app. left. apply elem_of_app. right. apply list_elem_of_here.
Qed.

(** With every value already there, the loop changes nothing. *)
Lemma insert_option_values_from_present position option_id values s s' :
  (∀ v, v ∈ values →
     ∃ r, r ∈ ecom_option_values (db s)
          ∧ val_option_id r = option_id ∧ val_value r = v) →
  insert_option_values_from w rejects position option_id values s = (Ok (), s') →
  s' = s.
Proof.
  revert position. induction values as [|value values IH]; intros position Hall.
  - by intros [= <-].
  - intros H%insert_option_values_from_cons.
    destruct (head _) as [row|] eqn:Hrow.
    + eapply IH; [|exact H]. intros v Hv. apply Hall. by apply list_elem_of_further.
    + apply head_filter_None in Hrow.
      destruct (Hall value (list_elem_of_here _ _)) as (r & Hin & Hoid & Hval).
      apply (proj1 (Forall_forall _ _) Hrow) in Hin.
      apply bool_decide_eq_false in Hin. by destruct Hin.
Qed.

End OptionValueFacts.

(** X19: when [insert_option_values] returns, every value of the list has a
    row for the option.  The rows that were there are untouched, the rows
    added all belong to the option and carry a value of the list, and the other
    tables are unchanged. *)
Theorem insert_option_values_all_present w rejects option_id values s s' :
  insert_option_values w rejects option_id values s = (Ok (), s') →
  (∀ v, v ∈ values →
     ∃ r, r ∈ ecom_option_values (db s')
          ∧ val_option_id r = option_id ∧ val_value r = v)
  ∧ (∃ new,
       ecom_option_values (db s') = ecom_option_values (db s) ++ new
       ∧ Forall (λ r, val_option_id r = option_id ∧ val_value r ∈ values) new)
  ∧ ecom_options (db s') = ecom_options (db s)
  ∧ ecom_category_option_suggestions (db s') = ecom_category_option_suggestions (db s).
Proof.
  intros (new & Htab & Hopt & Hlinks & Hnew & _ & Hall)%insert_option_values_from_ok.
  split_and!; [done| |done|done].
  exists new. split; [done|]. eapply Forall_impl; [exact Hnew|].
  intros r (? & _ & Hval & _). split; [done|]. by eapply list_elem_of_lookup_2.
Qed.

Lemma insert_option_values_all_present_witness :
  let values := [lit "S"; lit "M"; lit "S"; lit "L"] in
  let run := insert_option_values demo_world never_rejects (lit "o1") values
               (new_session empty_database) in
  (∀ v, v ∈ values →
     ∃ r, r ∈ ecom_option_values (db run.2)
          ∧ val_option_id r = lit "o1" ∧ val_value r = v)
  ∧ (∃ new,
       ecom_option_values (db run.2) = [] ++ new
       ∧ Forall (λ r, val_option_id r = lit "o1" ∧ val_value r ∈ values) new)
  ∧ ecom_options (db run.2) = []
  ∧ ecom_category_option_suggestions (db run.2) = [].
Proof.
  intros values run.
  apply (insert_option_values_all_present demo_world never_rejects (lit "o1") values
           (new_session empty_database) run.2).
  by vm_compute.
Defined.

(** X20: the position stored with a new row is the 1-based index, in the list
    passed to this call, of the row's value: values that are skipped leave
    gaps, and numbering starts again at 1 in every call. *)
Theorem insert_option_values_positions w rejects option_id values s s' :
  insert_option_values w rejects option_id values s = (Ok (), s') →
  ∃ new,
    ecom_option_values (db s') = ecom_option_values (db s) ++ new
    ∧ Forall (λ r,
         (1 ≤ val_position r ≤ length values)%nat
         ∧ values !! (val_position r - 1)%nat = Some (val_value r)) new.
Proof.
  intros (new & Htab & _ & _ & Hnew & _)%insert_option_values_from_ok.
  exists new. split; [done|]. eapply Forall_impl; [exact Hnew|].
  intros r (_ & Hpos & Hval & _). split; [|done].
  apply lookup_lt_Some in Hval. lia.
Qed.

Lemma insert_option_values_positions_witness :
  let values := [lit "S"; lit "M"; lit "S"; lit "L"] in
  let run := insert_option_values demo_world never_rejects (lit "o1") values
               (new_session empty_database) in
  ∃ new,
    ecom_option_values (db run.2) = [] ++ new
    ∧ Forall (λ r,
         (1 ≤ val_position r ≤ length values)%nat
         ∧ values !! (val_position r - 1)%nat = Some (val_value r)) new.
Proof.
  intros values run.
  apply (insert_option_values_positions demo_world never_rejects (lit "o1") values
           (new_session empty_database) run.2).
  by vm_compute.
Defined.

(** X21: inserting option values is idempotent: after a call that returned,
    a second call with the same option and values adds no row and draws no
    identifier. *)
Theorem insert_option_values_again w rejects rejects' option_id values s s' s2 :
  insert_option_values w rejects option_id values s = (Ok (), s') →
  insert_option_values w rejects' option_id values s' = (Ok (), s2) →
  s2 = s'.
Proof.
  intros (_ & _ & _ & _ & _ & _ & Hall)%insert_option_values_from_ok H2.
  by eapply insert_option_values_from_present.
Qed.

Lemma insert_option_values_again_witness :
  let values := [lit "S"; lit "M"; lit "S"; lit "L"] in
  let s1 := (insert_option_values demo_world never_rejects (lit "o1") values
               (new_session empty_database)).2 in
  (insert_option_values demo_world never_rejects (lit "o1") values s1).2 = s1.
Proof.
  intros values s1.
  apply (insert_option_values_again demo_world never_rejects never_rejects (lit "o1")
           values (new_session empty_database) s1); by vm_compute.
Defined.

(** X22: [insert_option_values] never stores a value twice for an option: if
    no two rows of the table share their (option, value) pair before the call,
    none do after it, even when the list repeats a value. *)
Theorem insert_option_values_no_duplicates w rejects option_id values s s' :
  insert_option_values w rejects option_id values s = (Ok (), s') →
  NoDup ((λ r, (val_option_id r, val_value r)) <$> ecom_option_values (db s)) →
  NoDup ((λ r, (val_option_id r, val_value r)) <$> ecom_option_values (db s')).
Proof.
  intros (new & -> & _ & _ & Hnew & Hnd & _)%insert_option_values_from_ok Hold.
  rewrite fmap_app. apply NoDup_app. split_and!; [done| |].
  - intros k (old & -> & Hin)%list_elem_of_fmap (r & [= Hoid Hval] & Hr)%list_elem_of_fmap.
    apply (proj1 (Forall_forall _ _) Hnew) in Hr as (Hr & _ & _ & Hfresh).
    apply (proj1 (Forall_forall _ _) Hfresh) in Hin. apply Hin. split; congruence.
  - apply (NoDup_fmap_1 snd). rewrite <- list_fmap_compose. exact Hnd.
Qed.

Lemma insert_option_values_no_duplicates_witness :
  let values := [lit "S"; lit "M"; lit "S"; lit "L"] in
  let run := insert_option_values demo_world never_rejects (lit "o1") values
               (new_session empty_database) in
  NoDup ((λ r, (val_option_id r, val_value r)) <$> ecom_option_values (db run.2)).
Proof.
  intros values run.
  apply (insert_option_values_no_duplicates demo_world never_rejects (lit "o1") values
           (new_session empty_database) run.2); [by vm_compute|].
  apply NoDup_nil_2.
Defined.

(** ** Empty and short slugs *)

Section SlugSize.
Variable U : UnicodeDB.

Lemma lstrip_keeps set s c : c ∈ s → set c = false → c ∈ lstrip set s.
Proof.
  intros Hin Hc. induction s as [|c' s IH]; [done|]. cbn [lstrip].
  destruct (set c') eqn:Hc'; [|done].
  apply elem_of_cons in Hin as [->|Hin]; [congruence|by apply IH].
Qed.

Lemma strip_keeps set s c : c ∈ s → set c = false → c ∈ strip set s.
Proof.
  intros Hin Hc. unfold strip, rstrip.
  apply elem_of_reverse, lstrip_keeps; [|done].
  by apply elem_of_reverse, lstrip_keeps.
Qed.

Lemma collapse_runs_keeps s c :
  c ∈ s → separator U c = false → c ∈ collapse_runs U s.
Proof.
  intros Hin Hc. induction s as [|c' s IH]; [done|].
  rewrite collapse_runs_cons.
  apply elem_of_cons in Hin as [<-|Hin].
  - rewrite Hc. apply list_elem_of_here.
  - specialize (IH Hin). destruct (separator U c').
    + destruct s as [|c'' s]; [by apply elem_of_nil in Hin|].
      destruct (separator U c''); [done|by apply list_elem_of_further].
    + by apply list_elem_of_further.
Qed.

Lemma collapse_runs_separators s :
  Forall (λ c, separator U c = true) s →
  collapse_runs U s = match s with [] => [] | _ :: _ => [hyphen] end.
Proof.
  induction 1 as [|c s Hc Hs IH]; [done|].
  rewrite collapse_runs_cons, Hc. destruct Hs as [|c' s Hc' Hs]; [done|].
  by rewrite Hc', IH.
Qed.

Lemma length_collapse_runs s : (length (collapse_runs U s) ≤ length s)%nat.
Proof.
  induction s as [|c s IH]; [done|]. rewrite collapse_runs_cons.
  destruct (separator U c).
  - destruct s as [|c' s]; [done|]. destruct (separator U c'); cbn in *; lia.
  - cbn. lia.
Qed.

Lemma length_remove_others s : (length (remove_others U s) ≤ length s)%nat.
Proof.
  unfold remove_others. induction s as [|c s IH]; [done|].
  cbn. destruct (kept U c); cbn; lia.
Qed.

Lemma length_strip set s : (length (strip set s) ≤ length s)%nat.
Proof.
  destruct (strip_split set s) as (pre & post & Hs).
  rewrite Hs at 2. rewrite !length_app. lia.
Qed.

End SlugSize.

(** X23: the base slug is empty exactly when the lowercased name has no
    character that is a word character and neither whitespace nor a hyphen:
    not only the empty name, also a name of punctuation, blanks and hyphens
    gets the empty slug. *)
Theorem generate_slug_empty_iff U name :
  generate_slug U name = []
  ↔ Forall (λ c, is_word U c = false ∨ is_space U c = true ∨ c = hyphen)
      (lower U name).
Proof.
  rewrite generate_slug_pipeline. split.
  - intros Hempty. apply Forall_forall. intros c Hc.
    destruct (is_word U c) eqn:Hw; [|by left].
    destruct (is_space U c) eqn:Hs; [by right; left|].
    destruct (is_hyphen c) eqn:Hh; [right; right; by apply is_hyphen_eq|].
    exfalso. cut (c ∈ strip is_hyphen (collapse_runs U (remove_others U (lower U name)))).
    { rewrite Hempty. apply not_elem_of_nil. }
    apply strip_keeps; [|done]. apply collapse_runs_keeps.
    + unfold remove_others. apply list_elem_of_In, List.filter_In.
      split; [by apply list_elem_of_In|]. unfold kept. by rewrite Hw.
    + unfold separator. by rewrite Hs, Hh.
  - intros Hname. rewrite collapse_runs_separators.
    + by destruct (remove_others U (lower U name)).
    + unfold remove_others. apply Forall_forall.
      intros c Hc. apply list_elem_of_In, List.filter_In in Hc as [Hc Hk].
      apply list_elem_of_In in Hc.
      apply (proj1 (Forall_forall _ _) Hname) in Hc as [Hw|[Hs| ->]].
      * unfold kept in Hk. rewrite Hw in Hk. exact Hk.
      * unfold separator. by rewrite Hs.
      * by apply is_hyphen_separator, is_hyphen_eq.
Qed.

(** X24: a base slug is never longer than the lowercased name, and never
    longer than the name itself when the name is ASCII. *)
Theorem generate_slug_length U name :
  (length (generate_slug U name) ≤ length (lower U name))%nat
  ∧ (forallb is_ascii name = true →
     (length (generate_slug U name) ≤ length name)%nat).
Proof.
  assert (length (generate_slug U name) ≤ length (lower U name))%nat as Hlen.
  { rewrite generate_slug_pipeline.
    etrans; [apply length_strip|]. etrans; [apply length_collapse_runs|].
    apply length_remove_others. }
  split; [done|]. intros Hascii. rewrite lower_ascii, length_fmap in Hlen; done.
Qed.

Lemma generate_slug_length_witness :
  (length (generate_slug ascii_only (lit "Men's Shoes")) ≤ length (lit "Men's Shoes"))%nat.
Proof.
  apply (proj2 (generate_slug_length ascii_only (lit "Men's Shoes"))). reflexivity.
Defined.

(** X25: create, then look up.  On a table whose codes are pairwise distinct,
    after [get_or_create_option] returned an identifier for a code,
    [get_option_id_by_code] returns that identifier for the code, and changes
    nothing. *)
Theorem get_option_id_by_code_after_create w rejects rejects' code name s id s' r s2 :
  NoDup (opt_code <$> ecom_options (db s)) →
  get_or_create_option w rejects code name s = (Ok id, s') →
  get_option_id_by_code rejects' code s' = (Ok r, s2) →
  r = Some id ∧ s2 = s'.
Proof.
  intros _ H1%get_or_create_option_ok.
  unfold get_option_id_by_code, db_bind, db_ret, cur_execute, fetchone.
  destruct (rejects' (db s') (SelectOptionByCode code)); [done|]. cbn.
  intros [= <- <-]. split; [|by destruct s'].
  destruct (head (List.filter _ (ecom_options (db s)))) as [row|] eqn:Hrow.
  - destruct H1 as [-> ->]. by rewrite Hrow.
  - destruct H1 as (-> & Hdb & _). rewrite Hdb. cbn [run_statement ecom_options].
    by erewrite head_filter_snoc_new; [|done|by apply bool_decide_eq_true].
Qed.

Lemma get_option_id_by_code_after_create_witness :
  let s1 := (get_or_create_option demo_world never_rejects (lit "size") (lit "Size")
               (new_session empty_database)).2 in
  Some (lit "uuid-0") = Some (lit "uuid-0")
  ∧ (get_option_id_by_code never_rejects (lit "size") s1).2 = s1.
Proof.
  intros s1.
  apply (get_option_id_by_code_after_create demo_world never_rejects never_rejects
           (lit "size") (lit "Size") (new_session empty_database) (lit "uuid-0") s1
           (Some (lit "uuid-0")));
    [apply NoDup_nil_2|by vm_compute..].
Defined.
